(** * A shallow embedding of the [S3] wrapper class of js-aws-s3 (src/src/index.ts)

    The file models the class [S3]: the single-shot operations
    [headObject], [getObject], [getObjectString], [getByteArray],
    [putObject], [updateObjectMetadata], the error normaliser
    [handleError], and the ranged [downloadObject] loop.  The second
    version of the class in the same source file (with [generateError]
    and a [finally] block in [downloadObject]) is modelled in the module
    [Variant].

    JavaScript numbers are modelled as integers extended with [NaN]
    (rounding of large doubles is not modelled); strings as Stdlib
    strings; thrown values as references into a heap of error objects;
    the [WriteStream] as a trace of the operations invoked on it; the
    S3 client [this.s3.send] as a function from commands to outputs that
    may only allocate error objects on the heap.  Logging calls are
    observability only and are not modelled. *)

From Stdlib Require Import ZArith Lia.
From stdpp Require Import base gmap strings list.
From Stdlib Require Import Ascii.
From Stdlib Require Import Init.Byte.

Open Scope Z_scope.

(** ** JavaScript numbers *)

Inductive num : Type :=
| Fin (z : Z)
| NaN.

Definition js_add (a b : num) : num :=
  match a, b with
  | Fin x, Fin y => Fin (x + y)
  | _, _ => NaN
  end.

Definition js_sub (a b : num) : num :=
  match a, b with
  | Fin x, Fin y => Fin (x - y)
  | _, _ => NaN
  end.

(** [===] on numbers: [NaN] is equal to nothing, itself included. *)
Definition js_strict_eq (a b : num) : bool :=
  match a, b with
  | Fin x, Fin y => Z.eqb x y
  | _, _ => false
  end.

(** ** [String.prototype.split] with a one-character separator *)

Fixpoint split_on (sep : ascii) (s : string) : list string :=
  match s with
  | EmptyString => [EmptyString]
  | String c r =>
      let rest := split_on sep r in
      if Ascii.eqb c sep then EmptyString :: rest
      else match rest with
           | h :: t => String c h :: t
           | [] => [String c EmptyString]
           end
  end.

(** ** [parseInt] (one argument, no radix)

    Leading white space is skipped, an optional sign is read, a [0x] or
    [0X] prefix selects radix 16, and the longest prefix of digits of the
    radix is read; no digit at all gives [NaN]. *)

Definition is_js_space (c : ascii) : bool :=
  let n := nat_of_ascii c in
  (n =? 32)%nat || (n =? 9)%nat || (n =? 10)%nat || (n =? 11)%nat
  || (n =? 12)%nat || (n =? 13)%nat || (n =? 160)%nat.

Fixpoint trim_start (s : string) : string :=
  match s with
  | EmptyString => EmptyString
  | String c r => if is_js_space c then trim_start r else s
  end.

Definition digit_value (radix : Z) (c : ascii) : option Z :=
  let n := Z.of_nat (nat_of_ascii c) in
  let v :=
    if (48 <=? n) && (n <=? 57) then n - 48
    else if (97 <=? n) && (n <=? 122) then n - 87
    else if (65 <=? n) && (n <=? 90) then n - 55
    else 99 in
  if v <? radix then Some v else None.

(** The values of the longest prefix of digits of [s] in [radix]. *)
Fixpoint digit_prefix (radix : Z) (s : string) : list Z :=
  match s with
  | EmptyString => []
  | String c r =>
      match digit_value radix c with
      | Some d => d :: digit_prefix radix r
      | None => []
      end
  end.

Definition digits_to_Z (radix : Z) (ds : list Z) : Z :=
  fold_left (fun acc d => radix * acc + d) ds 0.

Definition parse_unsigned (s : string) : num :=
  let '(radix, body) :=
    match s with
    | String c (String x r) =>
        if Ascii.eqb c "0" && (Ascii.eqb x "x" || Ascii.eqb x "X") then (16, r) else (10, s)
    | _ => (10, s)
    end in
  match digit_prefix radix body with
  | [] => NaN
  | ds => Fin (digits_to_Z radix ds)
  end.

Definition parseInt (s : string) : num :=
  match trim_start s with
  | String c r =>
      if Ascii.eqb c "-" then
        match parse_unsigned r with Fin z => Fin (- z) | NaN => NaN end
      else if Ascii.eqb c "+" then parse_unsigned r
      else parse_unsigned (String c r)
  | EmptyString => parse_unsigned EmptyString
  end.

(** [parseInt(undefined)] reads [String(undefined)], i.e. ["undefined"]. *)
Definition parseInt_opt (s : option string) : num :=
  match s with
  | Some s => parseInt s
  | None => parseInt "undefined"
  end.

(** ** Decimal printing of non-negative integers ([`${n}`]) *)

Definition digit_char (d : Z) : ascii := ascii_of_nat (Z.to_nat (48 + d)).

Fixpoint dec_digits (fuel : nat) (n : Z) : list Z :=
  match fuel with
  | O => [n]
  | S f => if n <? 10 then [n] else dec_digits f (n / 10) ++ [n mod 10]
  end.

Fixpoint string_of_chars (cs : list ascii) : string :=
  match cs with
  | [] => EmptyString
  | c :: r => String c (string_of_chars r)
  end.

Definition dec_nonneg (n : Z) : string :=
  string_of_chars (map digit_char (dec_digits (S (Z.to_nat (Z.log2 n))) n)).

(** [String(x)] for a number. *)
Definition num_to_string (x : num) : string :=
  match x with
  | NaN => "NaN"
  | Fin z => if z <? 0 then String "-" (dec_nonneg (- z)) else dec_nonneg z
  end.

(** ** Error objects, thrown values and the heap *)

(** An error object: the names of the constructors on its prototype chain
    (so [instanceof C] is membership of [C]) and its [message]. *)
Record ErrorObject := mkErrorObject {
  eclasses : list string;
  emessage : string
}.

Definition instance_of (cls : string) (o : ErrorObject) : bool :=
  bool_decide (cls ∈ eclasses o).

Inductive jsval : Type :=
| VRef (l : positive)
| VPrim (s : string).

Record Heap := mkHeap {
  objs : gmap positive ErrorObject;
  next : positive
}.

(** [new Error(message)] (or any other error class) on the heap. *)
Definition alloc (o : ErrorObject) (h : Heap) : Heap * jsval :=
  (mkHeap (<[next h := o]> (objs h)) (Pos.succ (next h)), VRef (next h)).

Definition new_Error (message : string) (h : Heap) : Heap * jsval :=
  alloc (mkErrorObject ["Error"] message) h.

(** ** Commands sent to the S3 client and their outputs *)

Record CopyObjectInput := mkCopyObjectInput {
  cBucket : string;
  cKey : string;
  cCopySource : string;
  cMetadataDirective : string;
  cMetadata : gmap string string
}.

Inductive Command : Type :=
| HeadObjectCommand (bucket key : string)
| GetObjectCommand (bucket key : string) (range : option string)
| PutObjectCommand (bucket key body : string)
| CopyObjectCommand (input : CopyObjectInput).

Record Output := mkOutput {
  ContentRange : option string;
  Body : option (list byte);
  ContentLength : option Z
}.

Inductive outcome (A : Type) : Type :=
| Ok (a : A)
| Throw (e : jsval).
Arguments Ok {A} a.
Arguments Throw {A} e.

(** The client [this.s3.send]: it sees the command and the heap (to
    allocate the errors it throws) and nothing else. *)
Definition Client := Command -> Heap -> Heap * outcome Output.

(** ** The write stream *)

Inductive StreamOp : Type :=
| SWrite (chunk : list byte)   (** bytes accepted by [write] *)
| SEnd                         (** [stream.end()]: flush and close *)
| SUnlink.                     (** removal of the partial file *)

Record Sink := mkSink {
  path : string;
  ops : list StreamOp
}.

(** [writeStream.write(chunk)]: the sink sees the chunk ([None] for
    [undefined]), may allocate the error it throws, and returns the new
    stream state. *)
Definition SinkWrite := option (list byte) -> Sink -> Heap -> Heap * outcome Sink.

(** Node's [fs.WriteStream.write] on a stream not in object mode: a
    [Uint8Array] is queued, any other chunk ([undefined] here) makes
    [write] throw a [TypeError] with code [ERR_INVALID_ARG_TYPE]. *)
Definition node_write : SinkWrite := fun chunk s h =>
  match chunk with
  | Some b => (h, Ok (mkSink (path s) (ops s ++ [SWrite b])))
  | None =>
      let '(h', e) := alloc (mkErrorObject ["TypeError"; "Error"]
                        "The chunk argument must be of type string or an instance of Buffer or Uint8Array. Received undefined") h in
      (h', Throw e)
  end.

(** ** The state of a call and its monad *)

Record World := mkWorld {
  heap : Heap;
  stream : Sink;
  sent : list Command        (** the commands sent to the client, in order *)
}.

Definition M (A : Type) := World -> World * outcome A.

Definition ret {A} (a : A) : M A := fun w => (w, Ok a).
Definition bind {A B} (m : M A) (k : A -> M B) : M B := fun w =>
  match m w with
  | (w', Ok a) => k a w'
  | (w', Throw e) => (w', Throw e)
  end.
Definition throw {A} (e : jsval) : M A := fun w => (w, Throw e).
Definition try_catch {A} (m : M A) (handler : jsval -> M A) : M A := fun w =>
  match m w with
  | (w', Ok a) => (w', Ok a)
  | (w', Throw e) => handler e w'
  end.

Notation "x <- m ;; k" := (bind m (fun x => k))
  (at level 100, m at next level, right associativity).

Definition with_heap (m : Heap -> Heap * jsval) : M jsval := fun w =>
  let '(h', v) := m (heap w) in (mkWorld h' (stream w) (sent w), Ok v).

(** [this.s3.send(command)]. *)
Definition send (client : Client) (cmd : Command) : M Output := fun w =>
  let '(h', r) := client cmd (heap w) in
  (mkWorld h' (stream w) (sent w ++ [cmd]), r).

Definition stream_write (write : SinkWrite) (chunk : option (list byte)) : M unit :=
  fun w =>
    let '(h', r) := write chunk (stream w) (heap w) in
    match r with
    | Ok s' => (mkWorld h' s' (sent w), Ok tt)
    | Throw e => (mkWorld h' (stream w) (sent w), Throw e)
    end.

(** ** The class [S3] (first version of src/src/index.ts) *)

Section S3.

Variable client : Client.

(** [handleError]: a service exception keeps its identity and gets the
    new message; anything else is replaced by [new Error(message)]. *)
Definition handleError (error : jsval) (message : string) : M jsval := fun w =>
  match error with
  | VRef l =>
      match objs (heap w) !! l with
      | Some o =>
          if instance_of "S3ServiceException" o then
            (mkWorld (mkHeap (<[l := mkErrorObject (eclasses o) message]> (objs (heap w)))
                             (next (heap w)))
                     (stream w) (sent w), Ok error)
          else with_heap (new_Error message) w
      | None => with_heap (new_Error message) w
      end
  | VPrim _ => with_heap (new_Error message) w
  end.

(** [catch (error) { throw this.handleError(error, message); }] *)
Definition rethrow {A} (message : string) (error : jsval) : M A :=
  e <- handleError error message ;; throw e.

Definition head_message (bucket key : string) : string :=
  "failed to retrieve head of key '" +:+ key +:+ "' in bucket '" +:+ bucket +:+ "'".
Definition get_message (bucket key : string) : string :=
  "failed to get key '" +:+ key +:+ "' from bucket '" +:+ bucket +:+ "'".
Definition put_message (bucket key : string) : string :=
  "failed to put key '" +:+ key +:+ "' in bucket '" +:+ bucket +:+ "'".
Definition update_message (bucket key : string) : string :=
  "failed to update metadata for key '" +:+ key +:+ "' in bucket '" +:+ bucket +:+ "'".

Definition headObject (bucket key : string) : M Output :=
  try_catch (send client (HeadObjectCommand bucket key))
            (rethrow (head_message bucket key)).

Definition getObject (bucket key : string) : M Output :=
  try_catch (send client (GetObjectCommand bucket key None))
            (rethrow (get_message bucket key)).

(** [!object.Body || !object.ContentLength]: [ContentLength] is falsy
    when undefined or [0]. *)
Definition body_missing (o : Output) : bool :=
  match Body o, ContentLength o with
  | Some _, Some n => Z.eqb n 0
  | _, _ => true
  end.

Definition getObjectString (transformToString : list byte -> string)
    (bucket key : string) : M string :=
  object <- getObject bucket key ;;
  match Body object with
  | Some body =>
      if body_missing object then e <- with_heap (new_Error "object body was undefined") ;; throw e
      else ret (transformToString body)
  | None => e <- with_heap (new_Error "object body was undefined") ;; throw e
  end.

Definition getByteArray (transformToByteArray : list byte -> list byte)
    (bucket key : string) : M (list byte) :=
  object <- getObject bucket key ;;
  match Body object with
  | Some body =>
      if body_missing object then e <- with_heap (new_Error "object body was undefined") ;; throw e
      else ret (transformToByteArray body)
  | None => e <- with_heap (new_Error "object body was undefined") ;; throw e
  end.

Definition copy_input (bucket key : string) (metadata : gmap string string) : CopyObjectInput :=
  mkCopyObjectInput bucket key (bucket +:+ "/" +:+ key) "REPLACE" metadata.

Definition updateObjectMetadata (bucket key : string) (metadata : gmap string string) : M unit :=
  try_catch (_ <- send client (CopyObjectCommand (copy_input bucket key metadata)) ;; ret tt)
            (rethrow (update_message bucket key)).

Definition putObject (bucket key body : string) : M unit :=
  try_catch (_ <- send client (PutObjectCommand bucket key body) ;; ret tt)
            (rethrow (put_message bucket key)).

End S3.

(** ** [downloadObject] *)

(** The static field [S3.ONE_MB]. *)
Definition ONE_MB : Z := 1024 * 1024.

Record RangeAndLength := mkRangeAndLength {
  rstart : num;
  rend : num;
  rlength : num
}.

(** [const isComplete = (end, length) => end === length - 1] *)
Definition isComplete (end_ length : num) : bool :=
  js_strict_eq end_ (js_sub length (Fin 1)).

(** [getRangeAndLength]: destructuring a too short array gives
    [undefined], which [parseInt] reads as ["undefined"]. *)
Definition getRangeAndLength (contentRange : string) : RangeAndLength :=
  let parts := split_on "/" contentRange in
  let range := default EmptyString (parts !! 0%nat) in
  let rparts := split_on "-" range in
  mkRangeAndLength (parseInt_opt (rparts !! 0%nat))
                   (parseInt_opt (rparts !! 1%nat))
                   (parseInt_opt (parts !! 1%nat)).

(** [let rangeAndLength = { start: -1, end: -1, length: -1 }] *)
Definition initial_range : RangeAndLength :=
  mkRangeAndLength (Fin (-1)) (Fin (-1)) (Fin (-1)).

(** The header [`bytes=${start}-${end}`]. *)
Definition range_header (start end_ : num) : string :=
  "bytes=" +:+ num_to_string start +:+ "-" +:+ num_to_string end_.

Definition download_message (bucket key file : string) : string :=
  "failed downloading key '" +:+ key +:+ "' from bucket '" +:+ bucket
  +:+ "' to '" +:+ file +:+ "'".

Section Download.

Variable client : Client.
Variable write : SinkWrite.
Variables bucket key : string.

Definition getObjectRange (start end_ : num) : M Output :=
  send client (GetObjectCommand bucket key (Some (range_header start end_))).

(** The [while] loop, run for at most [fuel] iterations: [Some r] when the
    loop exits with [rangeAndLength = r], [None] when it is still running
    after [fuel] iterations. *)
Fixpoint download_loop (fuel : nat) (rangeAndLength : RangeAndLength)
    : M (option RangeAndLength) :=
  if isComplete (rend rangeAndLength) (rlength rangeAndLength)
  then ret (Some rangeAndLength)
  else
    match fuel with
    | O => ret None
    | S fuel' =>
        let e := rend rangeAndLength in
        let nextRange := (js_add e (Fin 1), js_add e (Fin ONE_MB)) in
        out <- getObjectRange nextRange.1 nextRange.2 ;;
        _ <- stream_write write (Body out) ;;
        download_loop fuel' (getRangeAndLength (default EmptyString (ContentRange out)))
    end.

Definition loop_done (r : option RangeAndLength) : option unit :=
  match r with Some _ => Some tt | None => None end.

(** [downloadObject(bucket, key, writeStream)], run for at most [fuel]
    iterations of its loop: [Ok (Some tt)] is a resolved call, [Ok None] a
    call still running, [Throw e] a rejected call. *)
Definition downloadObject (fuel : nat) : M (option unit) := fun w =>
  try_catch (r <- download_loop fuel initial_range ;; ret (loop_done r))
            (rethrow (download_message bucket key (path (stream w)))) w.

End Download.

(** ** The second version of the class *)

Module Variant.

(** [generateError]: any [Error] keeps its identity and gets the new
    message; any other thrown value becomes [new Error(message)]. *)
Definition generateError (error : jsval) (message : string) : M jsval := fun w =>
  match error with
  | VRef l =>
      match objs (heap w) !! l with
      | Some o =>
          if instance_of "Error" o then
            (mkWorld (mkHeap (<[l := mkErrorObject (eclasses o) message]> (objs (heap w)))
                             (next (heap w)))
                     (stream w) (sent w), Ok error)
          else with_heap (new_Error message) w
      | None => with_heap (new_Error message) w
      end
  | VPrim _ => with_heap (new_Error message) w
  end.

(** [stream.end()] *)
Definition stream_end : M unit := fun w =>
  (mkWorld (heap w) (mkSink (path (stream w)) (ops (stream w) ++ [SEnd])) (sent w), Ok tt).

(** [try { ... } finally { fin }] for a call that may still be running. *)
Definition try_finally {A} (m : M (option A)) (fin : M unit) : M (option A) := fun w =>
  match m w with
  | (w', Ok None) => (w', Ok None)
  | (w', Ok (Some a)) =>
      match fin w' with
      | (w'', Ok _) => (w'', Ok (Some a))
      | (w'', Throw e) => (w'', Throw e)
      end
  | (w', Throw e) =>
      match fin w' with
      | (w'', Ok _) => (w'', Throw e)
      | (w'', Throw e') => (w'', Throw e')
      end
  end.

Definition download_message (bucket key file : string) : string :=
  "failed to download object '" +:+ key +:+ "' from '" +:+ bucket
  +:+ "' to file '" +:+ file +:+ "'".

Definition downloadObject (client : Client) (write : SinkWrite) (bucket key : string)
    (fuel : nat) : M (option unit) := fun w =>
  try_finally
    (try_catch (r <- download_loop client write bucket key fuel initial_range ;; ret (loop_done r))
               (fun error => e <- generateError error (download_message bucket key (path (stream w))) ;;
                             throw e))
    stream_end w.

(** [catch (error) { throw this.generateError(error, message); }] *)
Definition rethrow {A} (message : string) (error : jsval) : M A :=
  e <- generateError error message ;; throw e.

Definition head_message (bucket key : string) : string :=
  "failed to retrieve head of object '" +:+ key +:+ "' from '" +:+ bucket +:+ "'".
Definition get_message (bucket key : string) : string :=
  "failed to get object '" +:+ key +:+ "' from '" +:+ bucket +:+ "'".

Definition headObject (client : Client) (bucket key : string) : M Output :=
  try_catch (send client (HeadObjectCommand bucket key))
            (rethrow (head_message bucket key)).

Definition getObject (client : Client) (bucket key : string) : M Output :=
  try_catch (send client (GetObjectCommand bucket key None))
            (rethrow (get_message bucket key)).

(** [throw this.generateError(new Error(), "object body was undefined")] *)
Definition body_undefined {A} : M A :=
  e <- with_heap (new_Error EmptyString) ;;
  e' <- generateError e "object body was undefined" ;;
  throw e'.

Definition getObjectString (client : Client) (transformToString : list byte -> string)
    (bucket key : string) : M string :=
  object <- getObject client bucket key ;;
  match Body object with
  | Some body => if body_missing object then body_undefined else ret (transformToString body)
  | None => body_undefined
  end.

Definition getByteArray (client : Client) (transformToByteArray : list byte -> list byte)
    (bucket key : string) : M (list byte) :=
  object <- getObject client bucket key ;;
  match Body object with
  | Some body => if body_missing object then body_undefined else ret (transformToByteArray body)
  | None => body_undefined
  end.

End Variant.

(** ** A model of the service's ranged GET on one object

    Not code of this repository: the collaborator the downloader is run
    against.  A well-formed header [bytes=s-e] with [s <= e] and [s] inside
    the object is served with the bytes [s .. min e (L-1)] and the
    [Content-Range] [bytes s-e'/L]; a well-formed header starting at or
    beyond the end of the object is answered by the service exception
    [InvalidRange] (status 416); a header that is not well formed is
    ignored and the whole object is returned without [Content-Range]. *)

Definition parse_decimal (s : string) : option Z :=
  let ds := digit_prefix 10 s in
  match ds with
  | [] => None
  | _ => if (length ds =? String.length s)%nat then Some (digits_to_Z 10 ds) else None
  end.

Definition parse_range_header (r : string) : option (Z * Z) :=
  match r with
  | String "b" (String "y" (String "t" (String "e" (String "s" (String "=" rest))))) =>
      match split_on "-" rest with
      | [a; b] =>
          match parse_decimal a, parse_decimal b with
          | Some s, Some e => if s <=? e then Some (s, e) else None
          | _, _ => None
          end
      | _ => None
      end
  | _ => None
  end.

(** The bytes at offsets [s .. e] of [obj]. *)
Definition slice (obj : list byte) (s e : Z) : list byte :=
  take (Z.to_nat (e - s + 1)) (drop (Z.to_nat s) obj).

Definition content_range (s e len : Z) : string :=
  "bytes " +:+ dec_nonneg s +:+ "-" +:+ dec_nonneg e +:+ "/" +:+ dec_nonneg len.

Definition InvalidRange : ErrorObject :=
  mkErrorObject ["InvalidRange"; "S3ServiceException"; "Error"]
                "The requested range is not satisfiable".

Definition range_server (obj : list byte) : Client := fun cmd h =>
  let L := Z.of_nat (length obj) in
  match cmd with
  | GetObjectCommand _ _ (Some r) =>
      match parse_range_header r with
      | Some (s, e) =>
          if s <? L then
            let e' := Z.min e (L - 1) in
            (h, Ok (mkOutput (Some (content_range s e' L)) (Some (slice obj s e'))
                             (Some (e' - s + 1))))
          else let '(h', v) := alloc InvalidRange h in (h', Throw v)
      | None => (h, Ok (mkOutput None (Some obj) (Some L)))
      end
  | GetObjectCommand _ _ None => (h, Ok (mkOutput None (Some obj) (Some L)))
  | _ => (h, Ok (mkOutput None None None))
  end.

Definition empty_heap : Heap := mkHeap ∅ 1%positive.

Definition fresh_world (file : string) : World :=
  mkWorld empty_heap (mkSink file []) [].

(** The commands a complete download of an object sends, from offset [s],
    [k] windows of [ONE_MB] bytes each. *)
Fixpoint windows (bucket key : string) (s : Z) (k : nat) : list Command :=
  match k with
  | O => []
  | S k' => GetObjectCommand bucket key (Some (range_header (Fin s) (Fin (s + ONE_MB - 1))))
            :: windows bucket key (s + ONE_MB) k'
  end.

(** The chunks of [obj] at offsets [s], [s + ONE_MB], ...: chunk [i] holds
    the bytes at offsets [s + i * ONE_MB .. min (s + (i+1) * ONE_MB) L - 1]. *)
Fixpoint chunks (obj : list byte) (s : Z) (k : nat) : list (list byte) :=
  match k with
  | O => []
  | S k' => slice obj s (s + ONE_MB - 1) :: chunks obj (s + ONE_MB) k'
  end.

(** The written bytes of a stream trace. *)
Definition written (os : list StreamOp) : list (list byte) :=
  omap (fun o => match o with SWrite b => Some b | _ => None end) os.

Fixpoint has_char (c : ascii) (s : string) : bool :=
  match s with
  | EmptyString => false
  | String d r => Ascii.eqb d c || has_char c r
  end.

Definition is_digit (d : Z) : Prop := 0 <= d < 10.

(** ** The single-shot operations side by side *)

Inductive op : Type :=
| OpHead
| OpGet
| OpPut (body : string)
| OpUpdate (metadata : gmap string string).

Definition op_command (o : op) (bucket key : string) : Command :=
  match o with
  | OpHead => HeadObjectCommand bucket key
  | OpGet => GetObjectCommand bucket key None
  | OpPut body => PutObjectCommand bucket key body
  | OpUpdate metadata => CopyObjectCommand (copy_input bucket key metadata)
  end.

Definition op_message (o : op) (bucket key : string) : string :=
  match o with
  | OpHead => head_message bucket key
  | OpGet => get_message bucket key
  | OpPut _ => put_message bucket key
  | OpUpdate _ => update_message bucket key
  end.

Definition run_op (client : Client) (o : op) (bucket key : string) : M unit :=
  match o with
  | OpHead => _ <- headObject client bucket key ;; ret tt
  | OpGet => _ <- getObject client bucket key ;; ret tt
  | OpPut body => putObject client bucket key body
  | OpUpdate metadata => updateObjectMetadata client bucket key metadata
  end.

(** A thrown value that [instanceof S3ServiceException] recognises. *)
Definition is_service_exception (h : Heap) (e : jsval) : bool :=
  match e with
  | VRef l => match objs h !! l with
              | Some o => instance_of "S3ServiceException" o
              | None => false
              end
  | VPrim _ => false
  end.

(** ** A model of the service's CopyObject

    Not code of this repository.  [CopySource] names [bucket/key] (split
    at its first ['/']; URL decoding is not modelled); with the directive
    ["REPLACE"] the copy carries the metadata of the request, otherwise
    that of the source, and a copy of an object onto itself that changes
    nothing is refused. *)

Record S3Object := mkS3Object {
  data : list byte;
  metadata : gmap string string
}.

Fixpoint split_first (c : ascii) (s : string) : option (string * string) :=
  match s with
  | EmptyString => None
  | String x r =>
      if Ascii.eqb x c then Some (EmptyString, r)
      else match split_first c r with
           | Some (a, b) => Some (String x a, b)
           | None => None
           end
  end.

Definition copy_object (store : gmap (string * string) S3Object) (i : CopyObjectInput)
    : option (gmap (string * string) S3Object) :=
  match split_first "/" (cCopySource i) with
  | Some src =>
      match store !! src with
      | Some o =>
          if String.eqb (cMetadataDirective i) "REPLACE" then
            Some (<[(cBucket i, cKey i) := mkS3Object (data o) (cMetadata i)]> store)
          else if bool_decide (src = (cBucket i, cKey i)) then None
          else Some (<[(cBucket i, cKey i) := o]> store)
      | None => None
      end
  | None => None
  end.

(** ** Clients used as concrete inputs *)

(** Every response carries the body [b] and no [Content-Range]. *)
Definition no_range_client (b : list byte) : Client := fun _ h =>
  (h, Ok (mkOutput None (Some b) (Some (Z.of_nat (length b))))).

(** Every call fails with a network error (a plain [Error]). *)
Definition network_error_client : Client := fun _ h =>
  let '(h', v) := alloc (mkErrorObject ["Error"] "socket hang up") h in (h', Throw v).

(** Every call fails with a service exception. *)
Definition access_denied_client : Client := fun _ h =>
  let '(h', v) := alloc (mkErrorObject ["AccessDenied"; "S3ServiceException"; "Error"]
                                       "Access Denied") h in (h', Throw v).

(** Every response has a [Content-Range] but no [Body]. *)
Definition no_body_client (contentRange : string) : Client := fun _ h =>
  (h, Ok (mkOutput (Some contentRange) None None)).

(** A [getObject] response with the given body and length. *)
Definition get_client (body : option (list byte)) (len : option Z) : Client := fun _ h =>
  (h, Ok (mkOutput None body len)).

(** The first window is answered with one byte of a two-byte object;
    every other call fails with a network error. *)
Definition truncating_client : Client := fun cmd h =>
  match cmd with
  | GetObjectCommand _ _ (Some r) =>
      if String.eqb r "bytes=0-1048575"
      then (h, Ok (mkOutput (Some "bytes 0-0/2") (Some [Byte.x01]) (Some 1)))
      else network_error_client cmd h
  | _ => network_error_client cmd h
  end.

(** A client whose successful outputs do not depend on the heap and
    which fails or succeeds on a command whatever the heap. *)
Definition client_pure (client : Client) : Prop :=
  forall cmd h1 h2,
    match (client cmd h1).2, (client cmd h2).2 with
    | Ok o1, Ok o2 => o1 = o2
    | Throw _, Throw _ => True
    | _, _ => False
    end.

(** A rejected call. *)
Definition is_throw {A} (r : outcome A) : bool :=
  match r with Ok _ => false | Throw _ => true end.

(** Two outcomes that resolve to the same value or both reject. *)
Definition same_result {A} (r1 r2 : outcome A) : Prop :=
  match r1, r2 with
  | Ok a, Ok b => a = b
  | Throw _, Throw _ => True
  | _, _ => False
  end.

(** What may follow a number for [parseInt] to stop right after it. *)
Definition stops_number (rest : string) : Prop :=
  match rest with
  | EmptyString => True
  | String c _ => digit_value 10 c = None /\ Ascii.eqb c "x" = false /\ Ascii.eqb c "X" = false
  end.

(** * Properties *)

(** ** Strings *)

Lemma string_app_nil_l (b : string) : EmptyString +:+ b = b.
Proof. reflexivity. Qed.

Lemma string_app_cons (x : ascii) (a b : string) : String x a +:+ b = String x (a +:+ b).
Proof. reflexivity. Qed.

Lemma string_app_assoc (a b c : string) : (a +:+ b) +:+ c = a +:+ (b +:+ c).
Proof.
  induction a as [|x a IH]; [reflexivity|].
  rewrite !string_app_cons, IH. reflexivity.
Qed.

Lemma string_app_nil_r (a : string) : a +:+ EmptyString = a.
Proof.
  induction a as [|x a IH]; [reflexivity|]. rewrite string_app_cons, IH. reflexivity.
Qed.

Lemma split_on_no_sep (sep : ascii) (a : string) :
  has_char sep a = false -> split_on sep a = [a].
Proof.
  induction a as [|x a IH]; simpl; intros H; [reflexivity|].
  apply orb_false_iff in H as [H1 H2]. rewrite H1, (IH H2). reflexivity.
Qed.

Lemma split_on_app (sep : ascii) (a b : string) :
  has_char sep a = false ->
  split_on sep (a +:+ String sep b) = a :: split_on sep b.
Proof.
  induction a as [|x a IH]; intros H.
  - simpl. rewrite Ascii.eqb_refl. reflexivity.
  - rewrite string_app_cons. simpl in *.
    apply orb_false_iff in H as [H1 H2]. rewrite H1, (IH H2). reflexivity.
Qed.

Lemma has_char_app (c : ascii) (a b : string) :
  has_char c (a +:+ b) = has_char c a || has_char c b.
Proof.
  induction a as [|x a IH]; [reflexivity|].
  rewrite string_app_cons. simpl. rewrite IH. apply orb_assoc.
Qed.

(** ** Decimal digits *)

Lemma digit_value_char (d : Z) :
  0 <= d < 10 -> digit_value 10 (digit_char d) = Some d.
Proof.
  intros H.
  assert (d = 0 \/ d = 1 \/ d = 2 \/ d = 3 \/ d = 4 \/ d = 5 \/ d = 6 \/ d = 7
          \/ d = 8 \/ d = 9) as Hd by lia.
  repeat destruct Hd as [-> | Hd]; try reflexivity; subst; reflexivity.
Qed.

Lemma digit_char_not (c : ascii) (d : Z) :
  0 <= d < 10 -> digit_value 10 c = None -> Ascii.eqb (digit_char d) c = false.
Proof.
  intros Hd Hc. apply Ascii.eqb_neq. intros <-.
  rewrite digit_value_char in Hc by exact Hd. discriminate.
Qed.

Lemma dec_digits_spec (f : nat) (n : Z) :
  0 <= n < 10 ^ Z.of_nat (S f) ->
  Forall is_digit (dec_digits f n) /\ digits_to_Z 10 (dec_digits f n) = n
  /\ dec_digits f n <> [].
Proof.
  revert n. induction f as [|f IH]; intros n Hn.
  - simpl in Hn. simpl. split; [|split; [reflexivity|discriminate]].
    constructor; [unfold is_digit; lia|constructor].
  - simpl. destruct (n <? 10) eqn:E.
    + apply Z.ltb_lt in E. split; [|split; [reflexivity|discriminate]].
      constructor; [unfold is_digit; lia|constructor].
    + apply Z.ltb_ge in E.
      assert (Hq : 0 <= n / 10 < 10 ^ Z.of_nat (S f)).
      { split; [apply Z.div_pos; lia|].
        apply Z.div_lt_upper_bound; [lia|].
        replace (10 * 10 ^ Z.of_nat (S f)) with (10 ^ Z.of_nat (S (S f))); [lia|].
        rewrite (Nat2Z.inj_succ (S f)), Z.pow_succ_r by lia. lia. }
      destruct (IH _ Hq) as (Hall & Hval & _).
      repeat split.
      * apply Forall_app. split; [exact Hall|]. constructor; [|constructor].
        unfold is_digit. pose proof (Z.mod_pos_bound n 10). lia.
      * unfold digits_to_Z in *. rewrite fold_left_app. simpl. rewrite Hval.
        pose proof (Z.div_mod n 10). lia.
      * destruct (dec_digits f (n / 10)); discriminate.
Qed.

Lemma dec_nonneg_digits (n : Z) :
  0 <= n ->
  exists ds, dec_nonneg n = string_of_chars (map digit_char ds)
    /\ Forall is_digit ds /\ digits_to_Z 10 ds = n /\ ds <> [].
Proof.
  intros Hn. eexists. split; [reflexivity|].
  apply dec_digits_spec. split; [exact Hn|].
  destruct (Z.eq_dec n 0) as [->|Hn0]; [simpl; lia|].
  pose proof (Z.log2_spec n ltac:(lia)) as [_ Hlt].
  rewrite !Nat2Z.inj_succ, Z2Nat.id by (apply Z.log2_nonneg).
  pose proof (Z.log2_nonneg n).
  eapply Z.lt_le_trans; [exact Hlt|].
  apply Z.le_trans with (10 ^ Z.succ (Z.log2 n)).
  - apply Z.pow_le_mono_l. lia.
  - apply Z.pow_le_mono_r; lia.
Qed.

Lemma digit_prefix_chars (ds : list Z) (rest : string) :
  Forall is_digit ds ->
  digit_prefix 10 (string_of_chars (map digit_char ds) +:+ rest)
  = ds ++ digit_prefix 10 rest.
Proof.
  induction 1 as [|d ds Hd _ IH]; [reflexivity|].
  cbn [map string_of_chars]. rewrite string_app_cons. cbn [digit_prefix].
  rewrite digit_value_char by exact Hd. rewrite IH. reflexivity.
Qed.

Lemma has_char_chars (c : ascii) (ds : list Z) :
  Forall is_digit ds -> digit_value 10 c = None ->
  has_char c (string_of_chars (map digit_char ds)) = false.
Proof.
  intros Hall Hc. induction Hall as [|d ds Hd _ IH]; [reflexivity|].
  simpl. rewrite IH, (digit_char_not c d Hd Hc). reflexivity.
Qed.

Lemma digit_char_props (d : Z) :
  0 <= d < 10 ->
  is_js_space (digit_char d) = false /\ Ascii.eqb (digit_char d) "-" = false
  /\ Ascii.eqb (digit_char d) "+" = false /\ Ascii.eqb (digit_char d) "x" = false
  /\ Ascii.eqb (digit_char d) "X" = false.
Proof.
  intros H.
  assert (d = 0 \/ d = 1 \/ d = 2 \/ d = 3 \/ d = 4 \/ d = 5 \/ d = 6 \/ d = 7
          \/ d = 8 \/ d = 9) as Hd by lia.
  repeat destruct Hd as [-> | Hd]; try (subst; vm_compute; repeat split; reflexivity).
Qed.

Lemma parse_unsigned_10 (s : string) :
  (forall c x r, s = String c (String x r) ->
     Ascii.eqb c "0" && (Ascii.eqb x "x" || Ascii.eqb x "X") = false) ->
  parse_unsigned s = match digit_prefix 10 s with
                     | [] => NaN
                     | ds => Fin (digits_to_Z 10 ds)
                     end.
Proof.
  intros H. unfold parse_unsigned.
  destruct s as [|c [|x r]]; try reflexivity.
  rewrite (H c x r eq_refl). reflexivity.
Qed.

Lemma parseInt_dec (n : Z) (rest : string) :
  0 <= n -> stops_number rest -> parseInt (dec_nonneg n +:+ rest) = Fin n.
Proof.
  intros Hn Hrest.
  destruct (dec_nonneg_digits n Hn) as (ds & Hds & Hall & Hval & Hne).
  rewrite Hds.
  destruct ds as [|d ds]; [congruence|].
  inversion Hall as [|? ? Hd Hall']; subst.
  destruct (digit_char_props d Hd) as (Hsp & Hm & Hp & _).
  assert (Hpre : digit_prefix 10 rest = []).
  { destruct rest as [|c r]; [reflexivity|]. simpl in Hrest. simpl.
    destruct Hrest as (-> & _). reflexivity. }
  simpl map. unfold string_of_chars at 1; fold string_of_chars.
  rewrite string_app_cons.
  unfold parseInt. simpl trim_start. rewrite Hsp, Hm, Hp.
  assert (Hx : forall x r, string_of_chars (map digit_char ds) +:+ rest = String x r ->
                 Ascii.eqb x "x" || Ascii.eqb x "X" = false).
  { intros x r Heq. destruct ds as [|d2 ds2].
    - cbn [map string_of_chars] in Heq. rewrite string_app_nil_l in Heq.
      subst rest. simpl in Hrest. destruct Hrest as (_ & -> & ->). reflexivity.
    - inversion Hall' as [|? ? Hd2 _]; subst.
      cbn [map string_of_chars] in Heq. rewrite string_app_cons in Heq.
      injection Heq as <- _.
      destruct (digit_char_props d2 Hd2) as (_ & _ & _ & -> & ->). reflexivity. }
  rewrite parse_unsigned_10.
  - change (String (digit_char d) (string_of_chars (map digit_char ds) +:+ rest))
      with (string_of_chars (map digit_char (d :: ds)) +:+ rest).
    rewrite digit_prefix_chars by (constructor; assumption).
    rewrite Hpre, app_nil_r. reflexivity.
  - intros c x r Heq. injection Heq as <- Heq. rewrite (Hx x r Heq). apply andb_false_r.
Qed.

Lemma dec_has_char (c : ascii) (n : Z) :
  0 <= n -> digit_value 10 c = None -> has_char c (dec_nonneg n) = false.
Proof.
  intros Hn Hc. destruct (dec_nonneg_digits n Hn) as (ds & -> & Hall & _).
  apply has_char_chars; assumption.
Qed.

Lemma length_string_of_chars (cs : list ascii) :
  String.length (string_of_chars cs) = length cs.
Proof. induction cs as [|c cs IH]; simpl; [reflexivity | now rewrite IH]. Qed.

Lemma parse_decimal_dec (n : Z) : 0 <= n -> parse_decimal (dec_nonneg n) = Some n.
Proof.
  intros Hn. destruct (dec_nonneg_digits n Hn) as (ds & Hds & Hall & Hval & Hne).
  unfold parse_decimal. rewrite Hds.
  rewrite <- (string_app_nil_r (string_of_chars (map digit_char ds))).
  rewrite digit_prefix_chars by exact Hall. rewrite app_nil_r, string_app_nil_r.
  rewrite length_string_of_chars, length_map, Nat.eqb_refl, Hval.
  destruct ds; [congruence | reflexivity].
Qed.

Lemma num_to_string_nonneg (n : Z) : 0 <= n -> num_to_string (Fin n) = dec_nonneg n.
Proof.
  intros Hn. unfold num_to_string. destruct (n <? 0) eqn:E; [lia | reflexivity].
Qed.

Lemma parseInt_dec_alone (n : Z) : 0 <= n -> parseInt (dec_nonneg n) = Fin n.
Proof.
  intros Hn. rewrite <- (string_app_nil_r (dec_nonneg n)). apply parseInt_dec; [exact Hn | exact I].
Qed.

Lemma getRangeAndLength_content_range (s e L : Z) :
  0 <= s -> 0 <= e -> 0 <= L ->
  rend (getRangeAndLength (content_range s e L)) = Fin e
  /\ rlength (getRangeAndLength (content_range s e L)) = Fin L.
Proof.
  intros Hs He HL.
  assert (Hcr : content_range s e L
    = ("bytes " +:+ (dec_nonneg s +:+ String "-" (dec_nonneg e))) +:+ String "/" (dec_nonneg L)).
  { unfold content_range. rewrite !string_app_assoc, string_app_cons. reflexivity. }
  assert (Hsl : has_char "/" ("bytes " +:+ (dec_nonneg s +:+ String "-" (dec_nonneg e))) = false).
  { rewrite !has_char_app. cbn [has_char].
    rewrite !dec_has_char by (assumption || reflexivity). reflexivity. }
  assert (Hsd : has_char "-" ("bytes " +:+ dec_nonneg s) = false).
  { rewrite has_char_app, dec_has_char by (assumption || reflexivity). reflexivity. }
  unfold getRangeAndLength. rewrite Hcr, split_on_app by exact Hsl.
  rewrite (split_on_no_sep "/" (dec_nonneg L)) by (apply dec_has_char; [assumption | reflexivity]).
  cbn [lookup list_lookup from_option id rend rlength].
  rewrite <- (string_app_assoc "bytes " (dec_nonneg s)), split_on_app by exact Hsd.
  rewrite (split_on_no_sep "-" (dec_nonneg e)) by (apply dec_has_char; [assumption | reflexivity]).
  cbn [lookup list_lookup parseInt_opt rend rlength].
  rewrite !parseInt_dec_alone by assumption. split; reflexivity.
Qed.

Lemma parse_range_header_bytes (X : string) :
  parse_range_header ("bytes=" +:+ X) =
  match split_on "-" X with
  | [a; b] =>
      match parse_decimal a, parse_decimal b with
      | Some s, Some e => if s <=? e then Some (s, e) else None
      | _, _ => None
      end
  | _ => None
  end.
Proof. reflexivity. Qed.

Lemma parse_range_header_range (s e : Z) :
  0 <= s <= e -> parse_range_header (range_header (Fin s) (Fin e)) = Some (s, e).
Proof.
  intros H. unfold range_header.
  rewrite !num_to_string_nonneg by lia.
  rewrite parse_range_header_bytes.
  change ("-" +:+ dec_nonneg e) with (String "-" (dec_nonneg e)).
  rewrite split_on_app by (apply dec_has_char; [lia | reflexivity]).
  rewrite (split_on_no_sep "-" (dec_nonneg e)) by (apply dec_has_char; [lia | reflexivity]).
  rewrite !parse_decimal_dec by lia.
  destruct (s <=? e) eqn:E; [reflexivity | lia].
Qed.

(** ** The download loop against the ranged-GET model *)

Lemma ONE_MB_pos : 0 < ONE_MB.
Proof. reflexivity. Qed.

Section Complete.

Variable obj : list byte.
Variables bucket key : string.

Lemma server_window (s e : Z) (h : Heap) :
  0 <= s <= e -> s < Z.of_nat (length obj) ->
  range_server obj (GetObjectCommand bucket key (Some (range_header (Fin s) (Fin e)))) h
  = (h, Ok (mkOutput (Some (content_range s (Z.min e (Z.of_nat (length obj) - 1))
                                             (Z.of_nat (length obj))))
                     (Some (slice obj s (Z.min e (Z.of_nat (length obj) - 1))))
                     (Some (Z.min e (Z.of_nat (length obj) - 1) - s + 1)))).
Proof.
  intros Hse Hs. unfold range_server.
  rewrite parse_range_header_range by exact Hse.
  destruct (s <? Z.of_nat (length obj)) eqn:E; [reflexivity | lia].
Qed.

Lemma loop_exit (f : nat) (ral : RangeAndLength) (w : World) :
  isComplete (rend ral) (rlength ral) = true ->
  download_loop (range_server obj) node_write bucket key f ral w = (w, Ok (Some ral)).
Proof. intros H. destruct f; cbn [download_loop]; rewrite H; reflexivity. Qed.

Lemma loop_step (f : nat) (ral : RangeAndLength) (e : Z) (w : World) :
  rend ral = Fin e -> isComplete (rend ral) (rlength ral) = false ->
  0 <= e + 1 < Z.of_nat (length obj) ->
  download_loop (range_server obj) node_write bucket key (S f) ral w
  = download_loop (range_server obj) node_write bucket key f
      (getRangeAndLength (content_range (e + 1) (Z.min (e + ONE_MB) (Z.of_nat (length obj) - 1))
                                        (Z.of_nat (length obj))))
      (mkWorld (heap w)
         (mkSink (path (stream w))
            (ops (stream w) ++ [SWrite (slice obj (e + 1) (Z.min (e + ONE_MB) (Z.of_nat (length obj) - 1)))]))
         (sent w ++ [GetObjectCommand bucket key (Some (range_header (Fin (e + 1)) (Fin (e + ONE_MB))))])).
Proof.
  intros He Hinc Hb. pose proof ONE_MB_pos.
  cbn [download_loop]. rewrite Hinc, He.
  unfold bind at 1, getObjectRange, send. cbn [js_add fst snd].
  rewrite server_window by lia.
  unfold bind, stream_write, node_write. cbn [heap stream sent path ops Body ContentRange from_option id].
  reflexivity.
Qed.

Lemma slice_clamp (s e : Z) :
  0 <= s -> slice obj s e = slice obj s (Z.min e (Z.of_nat (length obj) - 1)).
Proof.
  intros Hs. unfold slice.
  destruct (Z_le_gt_dec e (Z.of_nat (length obj) - 1)) as [Hle|Hgt].
  - rewrite Z.min_l by exact Hle. reflexivity.
  - rewrite Z.min_r by lia.
    rewrite !take_ge; [reflexivity | rewrite length_drop; lia..].
Qed.

Lemma loop_complete (k : nat) : forall f ral e w,
  rend ral = Fin e -> isComplete (rend ral) (rlength ral) = false ->
  -1 <= e < Z.of_nat (length obj) - 1 ->
  (Z.of_nat k - 1) * ONE_MB < Z.of_nat (length obj) - 1 - e <= Z.of_nat k * ONE_MB ->
  (k <= f)%nat ->
  exists r,
    download_loop (range_server obj) node_write bucket key f ral w
    = (mkWorld (heap w)
         (mkSink (path (stream w)) (ops (stream w) ++ map SWrite (chunks obj (e + 1) k)))
         (sent w ++ windows bucket key (e + 1) k), Ok (Some r)).
Proof.
  pose proof ONE_MB_pos as HC.
  induction k as [|k IH]; intros f ral e w He Hinc Hrange Hk Hf; [lia|].
  destruct f as [|f]; [lia|].
  rewrite (loop_step f ral e w He Hinc) by lia.
  set (L := Z.of_nat (length obj)) in *.
  destruct (Z_le_gt_dec (L - 1) (e + ONE_MB)) as [Hlast|Hmore].
  - rewrite Z.min_r by lia.
    destruct (getRangeAndLength_content_range (e + 1) (L - 1) L) as [Hend Hlen]; [lia..|].
    rewrite loop_exit by (rewrite Hend, Hlen; cbn; rewrite Z.eqb_refl; reflexivity).
    assert (k = 0%nat) as -> by nia.
    eexists. cbn [windows chunks map].
    replace (e + 1 + ONE_MB - 1) with (e + ONE_MB) by lia.
    rewrite (slice_clamp (e + 1) (e + ONE_MB)) by lia. fold L.
    rewrite Z.min_r by lia. reflexivity.
  - rewrite Z.min_l by lia.
    destruct (getRangeAndLength_content_range (e + 1) (e + ONE_MB) L) as [Hend Hlen]; [lia..|].
    destruct (IH f (getRangeAndLength (content_range (e + 1) (e + ONE_MB) L)) (e + ONE_MB) (mkWorld (heap w)
         (mkSink (path (stream w)) (ops (stream w) ++ [SWrite (slice obj (e + 1) (e + ONE_MB))]))
         (sent w ++ [GetObjectCommand bucket key (Some (range_header (Fin (e + 1)) (Fin (e + ONE_MB))))])))
      as [r Hr]; [exact Hend | rewrite Hend, Hlen; cbn; apply Z.eqb_neq; lia | lia | lia | lia |].
    exists r. rewrite Hr. cbn [heap stream sent path ops windows chunks map].
    replace (e + ONE_MB + 1) with (e + 1 + ONE_MB) by lia.
    replace (e + 1 + ONE_MB - 1) with (e + ONE_MB) by lia.
    rewrite <- !app_assoc. reflexivity.
Qed.

End Complete.

Lemma chunks_concat (obj : list byte) (k : nat) : forall s,
  0 <= s -> Z.of_nat (length obj) - s <= Z.of_nat k * ONE_MB ->
  concat (chunks obj s k) = drop (Z.to_nat s) obj.
Proof.
  pose proof ONE_MB_pos as HC.
  induction k as [|k IH]; intros s Hs Hk.
  - cbn [chunks concat]. rewrite drop_ge; [reflexivity | lia].
  - cbn [chunks concat]. rewrite IH by lia.
    unfold slice. replace (s + ONE_MB - 1 - s + 1) with ONE_MB by lia.
    rewrite Z2Nat.inj_add by lia. rewrite <- drop_drop. apply take_drop.
Qed.

Lemma ceil_bounds (L : Z) :
  0 < L ->
  let k := (L + ONE_MB - 1) / ONE_MB in
  1 <= k /\ (k - 1) * ONE_MB < L <= k * ONE_MB.
Proof.
  intros HL k. pose proof ONE_MB_pos as HC.
  pose proof (Z.div_mod (L + ONE_MB - 1) ONE_MB ltac:(lia)) as Hdm.
  pose proof (Z.mod_pos_bound (L + ONE_MB - 1) ONE_MB HC) as Hb.
  fold k in Hdm. nia.
Qed.

Lemma length_windows (bucket key : string) (k : nat) : forall s,
  length (windows bucket key s k) = k.
Proof. induction k as [|k IH]; intros s; cbn [windows length]; [reflexivity | now rewrite IH]. Qed.

Lemma downloadObject_run (client : Client) (write : SinkWrite) (bucket key : string)
    (fuel : nat) (w : World) :
  downloadObject client write bucket key fuel w
  = try_catch (r <- download_loop client write bucket key fuel initial_range ;; ret (loop_done r))
              (rethrow (download_message bucket key (path (stream w)))) w.
Proof. reflexivity. Qed.

(** ** Claim C1 *)

(** C1 (amended): for an object of [L >= 1] bytes served by the ranged GET
    of the service, [downloadObject] resolves after exactly
    [k = ceil (L / ONE_MB)] fetches (the windows [[i * ONE_MB, (i+1) *
    ONE_MB - 1]], [i < k]), writes to the stream exactly the chunks at
    offsets [0, ONE_MB, 2 * ONE_MB, ...] in that order, whose
    concatenation is the object itself ([L] bytes, no gap, no overlap),
    and allocates no error. *)
Theorem downloadObject_complete (obj : list byte) (bucket key file : string) (fuel : nat) :
  (1 <= length obj)%nat ->
  (Z.to_nat ((Z.of_nat (length obj) + ONE_MB - 1) / ONE_MB) <= fuel)%nat ->
  let k := Z.to_nat ((Z.of_nat (length obj) + ONE_MB - 1) / ONE_MB) in
  downloadObject (range_server obj) node_write bucket key fuel (fresh_world file)
  = (mkWorld empty_heap (mkSink file (map SWrite (chunks obj 0 k))) (windows bucket key 0 k),
     Ok (Some tt))
  /\ (1 <= k)%nat /\ length (windows bucket key 0 k) = k
  /\ concat (chunks obj 0 k) = obj.
Proof.
  intros Hlen Hfuel k.
  destruct (ceil_bounds (Z.of_nat (length obj)) ltac:(lia)) as (Hk1 & Hlo & Hhi).
  assert (Hk : Z.of_nat k = (Z.of_nat (length obj) + ONE_MB - 1) / ONE_MB)
    by (unfold k; rewrite Z2Nat.id; lia).
  destruct (loop_complete obj bucket key k fuel initial_range (-1) (fresh_world file))
    as [r Hr]; [reflexivity | reflexivity | lia | rewrite Hk; lia | exact Hfuel |].
  split; [|split; [lia | split; [apply length_windows |]]].
  - rewrite downloadObject_run. unfold try_catch, bind at 1. rewrite Hr. reflexivity.
  - rewrite chunks_concat by (rewrite ?Hk; lia). reflexivity.
Qed.

Lemma downloadObject_complete_witness :
  ((1 <= length [Byte.x00])%nat
   /\ (Z.to_nat ((Z.of_nat (length [Byte.x00]) + ONE_MB - 1) / ONE_MB) <= 1)%nat)
  /\ (let k := Z.to_nat ((Z.of_nat (length [Byte.x00]) + ONE_MB - 1) / ONE_MB) in
      downloadObject (range_server [Byte.x00]) node_write "b" "k" 1 (fresh_world "f")
      = (mkWorld empty_heap (mkSink "f" (map SWrite (chunks [Byte.x00] 0 k))) (windows "b" "k" 0 k),
         Ok (Some tt))
      /\ (1 <= k)%nat /\ length (windows "b" "k" 0 k) = k
      /\ concat (chunks [Byte.x00] 0 k) = [Byte.x00]).
Proof.
  assert (H : (1 <= length [Byte.x00])%nat
   /\ (Z.to_nat ((Z.of_nat (length [Byte.x00]) + ONE_MB - 1) / ONE_MB) <= 1)%nat)
    by (split; vm_compute; lia).
  split; [exact H|].
  apply (downloadObject_complete [Byte.x00] "b" "k" "f" 1); apply H.
Defined.

(** C1 fails for [L = 0]: on an empty object the first ranged GET is
    answered by [InvalidRange], so no number of iterations makes the call
    resolve. *)
Lemma downloadObject_empty_object_never_resolves :
  ~ (exists fuel, snd (downloadObject (range_server []) node_write "b" "k" fuel (fresh_world "f"))
                  = Ok (Some tt)).
Proof.
  intros [fuel H]. destruct fuel as [|fuel]; vm_compute in H; discriminate.
Qed.

(** ** The completion check on parsed descriptors *)

Lemma split_on_pieces (c : ascii) (s : string) :
  Forall (fun p => has_char c p = false) (split_on c s).
Proof.
  induction s as [|x r IH]; simpl.
  - constructor; [reflexivity | constructor].
  - destruct (Ascii.eqb x c) eqn:E.
    + constructor; [reflexivity | exact IH].
    + destruct (split_on c r) as [|h t]; constructor.
      * simpl. rewrite E. reflexivity.
      * constructor.
      * simpl. rewrite E. inversion IH; subst. assumption.
      * inversion IH; subst. assumption.
Qed.

Lemma has_char_trim_start (c : ascii) (s : string) :
  has_char c s = false -> has_char c (trim_start s) = false.
Proof.
  induction s as [|x r IH]; simpl; intros H; [reflexivity|].
  apply orb_false_iff in H as [H1 H2].
  destruct (is_js_space x); [apply IH, H2 | simpl; rewrite H1, H2; reflexivity].
Qed.

Lemma digit_value_nonneg (radix : Z) (c : ascii) (v : Z) :
  digit_value radix c = Some v -> 0 <= v.
Proof.
  unfold digit_value. intros H.
  repeat match goal with
  | H : context [if ?b then _ else _] |- _ => destruct b eqn:?
  end; try discriminate; injection H as <-;
  repeat match goal with H : (_ && _)%bool = true |- _ => apply andb_true_iff in H as [? ?] end;
  rewrite ?Z.leb_le in *; lia.
Qed.

Lemma digit_prefix_nonneg (radix : Z) (s : string) :
  Forall (fun d => 0 <= d) (digit_prefix radix s).
Proof.
  induction s as [|x r IH]; simpl; [constructor|].
  destruct (digit_value radix x) eqn:E; [|constructor].
  constructor; [eapply digit_value_nonneg; eauto | exact IH].
Qed.

Lemma fold_digits_nonneg (radix : Z) (ds : list Z) : forall acc,
  0 <= radix -> 0 <= acc -> Forall (fun d => 0 <= d) ds ->
  0 <= fold_left (fun acc d => radix * acc + d) ds acc.
Proof.
  induction ds as [|d ds IH]; intros acc Hr Ha Hds; simpl; [exact Ha|].
  inversion Hds; subst. apply IH; [exact Hr | nia | assumption].
Qed.

Lemma parse_unsigned_nonneg (s : string) :
  parse_unsigned s = NaN \/ exists z, parse_unsigned s = Fin z /\ 0 <= z.
Proof.
  unfold parse_unsigned.
  destruct (match s with
            | String c (String x r) =>
                if Ascii.eqb c "0" && (Ascii.eqb x "x" || Ascii.eqb x "X")
                then (16, r) else (10, s)
            | _ => (10, s)
            end) as [radix body] eqn:E.
  assert (Hr : 0 <= radix).
  { destruct s as [|c [|x r]]; try (injection E; intros; lia).
    destruct (Ascii.eqb c "0" && (Ascii.eqb x "x" || Ascii.eqb x "X")); injection E; intros; lia. }
  destruct (digit_prefix radix body) as [|d ds] eqn:Ed; [left; reflexivity|].
  right. eexists. split; [reflexivity|].
  unfold digits_to_Z. rewrite <- Ed. apply fold_digits_nonneg; [exact Hr | lia | apply digit_prefix_nonneg].
Qed.

Lemma parseInt_no_minus (s : string) :
  has_char "-" s = false ->
  parseInt s = NaN \/ exists z, parseInt s = Fin z /\ 0 <= z.
Proof.
  intros H. apply has_char_trim_start in H. unfold parseInt.
  destruct (trim_start s) as [|c r]; [apply parse_unsigned_nonneg|].
  simpl in H. apply orb_false_iff in H as [H1 _]. rewrite H1.
  destruct (Ascii.eqb c "+"); apply parse_unsigned_nonneg.
Qed.

(** Whatever the descriptor, the end offset it parses to is [NaN] or
    non-negative (the piece read never holds a ['-']), so the completion
    check [end === length - 1] only holds for a parsed length of at least
    [1]. *)
Lemma complete_needs_positive_length (contentRange : string) :
  isComplete (rend (getRangeAndLength contentRange)) (rlength (getRangeAndLength contentRange)) = true ->
  exists n, rlength (getRangeAndLength contentRange) = Fin n /\ 1 <= n.
Proof.
  unfold getRangeAndLength. cbn [rend rlength].
  set (rparts := split_on "-" (default EmptyString (split_on "/" contentRange !! 0%nat))).
  assert (Hp : Forall (fun p => has_char "-" p = false) rparts) by apply split_on_pieces.
  destruct (rparts !! 1%nat) as [p|] eqn:Ep.
  - assert (Hnp : has_char "-" p = false).
    { rewrite Forall_lookup in Hp. exact (Hp _ _ Ep). }
    cbn [parseInt_opt].
    destruct (parseInt_no_minus p Hnp) as [-> | (z & -> & Hz)]; [discriminate|].
    destruct (parseInt_opt (split_on "/" contentRange !! 1%nat)) as [n|]; [|discriminate].
    unfold isComplete, js_sub, js_strict_eq. intros Heq. apply Z.eqb_eq in Heq.
    exists n. split; [reflexivity | lia].
  - discriminate.
Qed.

Section Exit.

Variable client : Client.
Variable write : SinkWrite.
Variables bucket key : string.

(** The loop exits on a complete state, which is its initial state or the
    state parsed from a response of the client. *)
Lemma loop_exit_state (f : nat) : forall ral w w' r,
  download_loop client write bucket key f ral w = (w', Ok (Some r)) ->
  isComplete (rend r) (rlength r) = true
  /\ (r = ral \/ exists cmd h h' out, client cmd h = (h', Ok out)
                   /\ r = getRangeAndLength (default EmptyString (ContentRange out))).
Proof.
  induction f as [|f IH]; intros ral w w' r H; cbn [download_loop] in H;
    destruct (isComplete (rend ral) (rlength ral)) eqn:Ec.
  - injection H as _ <-. auto.
  - discriminate.
  - injection H as _ <-. auto.
  - unfold bind at 1, getObjectRange, send in H.
    destruct (client _ (heap w)) as [h1 [out|e]] eqn:Ecl; [|discriminate].
    unfold bind in H.
    destruct (stream_write write (Body out) _) as [w2 [[]|e]]; [|discriminate].
    destruct (IH _ _ _ _ H) as [Hc [-> | Hrest]]; split; [exact Hc | | exact Hc | right; exact Hrest].
    right. do 4 eexists. split; [exact Ecl | reflexivity].
Qed.

(** Against a client whose every response reports a total length of [0],
    [downloadObject] never resolves, whatever the number of iterations. *)
Lemma downloadObject_zero_length_never_resolves :
  (forall cmd h h' out, client cmd h = (h', Ok out) ->
     rlength (getRangeAndLength (default EmptyString (ContentRange out))) = Fin 0) ->
  forall fuel w, snd (downloadObject client write bucket key fuel w) <> Ok (Some tt).
Proof.
  intros Hzero fuel w Hres.
  rewrite downloadObject_run in Hres. unfold try_catch, bind at 1 in Hres.
  destruct (download_loop client write bucket key fuel initial_range w)
    as [w1 [[r|]|e]] eqn:El; try discriminate.
  - destruct (loop_exit_state _ _ _ _ _ El) as [Hc [-> | (cmd & h & h' & out & Hcl & ->)]].
    + discriminate.
    + destruct (complete_needs_positive_length _ Hc) as (n & Hn & Hn1).
      rewrite (Hzero _ _ _ _ Hcl) in Hn. injection Hn as <-. lia.
  - unfold rethrow, bind in Hres.
    destruct (handleError e _ w1) as [w2 [v|v]]; discriminate.
Qed.

End Exit.

(** ** Claim C2 *)

(** C2 (code bug): on an empty object [downloadObject] does not resolve
    after one fetch.  Against the service's ranged GET the first fetch,
    for [bytes=0-1048575], is rejected with [InvalidRange]; nothing is
    written, the stream is neither finalized nor discarded, and the call
    rejects with that service exception, re-labelled by [handleError]. *)
Theorem downloadObject_empty_object (fuel : nat) :
  downloadObject (range_server []) node_write "b" "k" (S fuel) (fresh_world "f")
  = (mkWorld (mkHeap (<[1%positive := mkErrorObject (eclasses InvalidRange)
                                        (download_message "b" "k" "f")]> ∅) 2%positive)
             (mkSink "f" [])
             [GetObjectCommand "b" "k" (Some "bytes=0-1048575")],
     Throw (VRef 1%positive)).
Proof. reflexivity. Qed.

(** ** Claim C3 *)

(** C3 (amended): a missing or unparsable [Content-Range] is not
    detected.  When the end offset it parses to is [NaN] (an absent
    descriptor is read as [""], whose end is [NaN]), the completion check
    fails and the next iteration sends the window [bytes=NaN-NaN] to the
    client, writes its body and goes on; no error is raised for the
    descriptor itself. *)
Theorem malformed_descriptor_continues (client : Client) (write : SinkWrite)
    (bucket key : string) (cr : option string) (f : nat) (w : World) :
  rend (getRangeAndLength (default EmptyString cr)) = NaN ->
  rend (getRangeAndLength EmptyString) = NaN
  /\ isComplete (rend (getRangeAndLength (default EmptyString cr)))
                (rlength (getRangeAndLength (default EmptyString cr))) = false
  /\ download_loop client write bucket key (S f) (getRangeAndLength (default EmptyString cr)) w
     = (out <- send client (GetObjectCommand bucket key (Some "bytes=NaN-NaN")) ;;
        _ <- stream_write write (Body out) ;;
        download_loop client write bucket key f
          (getRangeAndLength (default EmptyString (ContentRange out)))) w.
Proof.
  intros H. split; [reflexivity|].
  assert (Hc : isComplete (rend (getRangeAndLength (default EmptyString cr)))
                 (rlength (getRangeAndLength (default EmptyString cr))) = false)
    by (rewrite H; reflexivity).
  split; [exact Hc|].
  cbn [download_loop]. rewrite Hc, H. reflexivity.
Qed.

Lemma malformed_descriptor_continues_witness :
  rend (getRangeAndLength (default EmptyString None)) = NaN
  /\ (rend (getRangeAndLength EmptyString) = NaN
  /\ isComplete (rend (getRangeAndLength (default EmptyString None)))
                (rlength (getRangeAndLength (default EmptyString None))) = false
  /\ download_loop (no_range_client []) node_write "b" "k" 1
       (getRangeAndLength (default EmptyString None)) (fresh_world "f")
     = (out <- send (no_range_client []) (GetObjectCommand "b" "k" (Some "bytes=NaN-NaN")) ;;
        _ <- stream_write node_write (Body out) ;;
        download_loop (no_range_client []) node_write "b" "k" 0
          (getRangeAndLength (default EmptyString (ContentRange out)))) (fresh_world "f")).
Proof.
  split; [reflexivity|].
  apply (malformed_descriptor_continues (no_range_client []) node_write "b" "k" None 0
           (fresh_world "f")).
  reflexivity.
Defined.

(** C3 is false: against a client that answers without [Content-Range],
    the call has not failed after two iterations, and the second one sent
    a further fetch, for [bytes=NaN-NaN]. *)
Lemma missing_descriptor_second_fetch :
  downloadObject (no_range_client [Byte.x01]) node_write "b" "k" 2 (fresh_world "f")
  = (mkWorld empty_heap (mkSink "f" [SWrite [Byte.x01]; SWrite [Byte.x01]])
       [GetObjectCommand "b" "k" (Some "bytes=0-1048575");
        GetObjectCommand "b" "k" (Some "bytes=NaN-NaN")],
     Ok None).
Proof. reflexivity. Qed.

(** ** Stream operations and sent commands of the loop *)

Lemma sink_eta_writes (s : Sink) : s = mkSink (path s) (ops s ++ map SWrite []).
Proof. destruct s. cbn. rewrite app_nil_r. reflexivity. Qed.

Lemma node_write_some (b : list byte) (s : Sink) (h : Heap) :
  node_write (Some b) s h = (h, Ok (mkSink (path s) (ops s ++ [SWrite b]))).
Proof. reflexivity. Qed.

Section LoopTrace.

Variable client : Client.
Variables bucket key : string.

Lemma loop_stream_writes (f : nat) : forall ral w,
  exists bs, stream (download_loop client node_write bucket key f ral w).1
             = mkSink (path (stream w)) (ops (stream w) ++ map SWrite bs).
Proof.
  induction f as [|f IH]; intros ral w; cbn [download_loop];
    destruct (isComplete (rend ral) (rlength ral)).
  - exists []. apply sink_eta_writes.
  - exists []. apply sink_eta_writes.
  - exists []. apply sink_eta_writes.
  - unfold bind at 1, getObjectRange, send.
    destruct (client _ (heap w)) as [h1 [out|e]]; cbn [fst stream].
    + unfold bind, stream_write.
      destruct (Body out) as [b|].
      * rewrite node_write_some. cbn [stream path ops heap sent].
        match goal with |- context [download_loop client node_write bucket key f ?r ?w'] =>
          destruct (IH r w') as [bs Hbs] end.
        exists (b :: bs). rewrite Hbs. cbn [stream path ops map]. rewrite <- app_assoc. reflexivity.
      * unfold node_write, alloc. cbn [fst stream]. exists []. apply sink_eta_writes.
    + exists []. apply sink_eta_writes.
Qed.

Lemma loop_sent_prefix (write : SinkWrite) (f : nat) : forall ral w,
  exists rest, sent (download_loop client write bucket key f ral w).1 = sent w ++ rest.
Proof.
  induction f as [|f IH]; intros ral w; cbn [download_loop];
    destruct (isComplete (rend ral) (rlength ral));
    try (exists []; rewrite app_nil_r; reflexivity).
  unfold bind at 1, getObjectRange, send.
  destruct (client _ (heap w)) as [h1 [out|e]]; cbn [fst sent].
  - unfold bind, stream_write.
    match goal with |- context [write ?b ?s ?h] =>
      destruct (write b s h) as [h2 [s'|e]] end; cbn [fst sent].
    + match goal with |- context [download_loop client write bucket key f ?r ?w'] =>
        destruct (IH r w') as [rest Hr] end.
      rewrite Hr. cbn [sent]. eexists. rewrite <- app_assoc. reflexivity.
    + eexists. reflexivity.
  - eexists. reflexivity.
Qed.

End LoopTrace.

Lemma handleError_stream (error : jsval) (message : string) (w : World) :
  stream (handleError error message w).1 = stream w.
Proof.
  unfold handleError, with_heap, new_Error, alloc.
  destruct error as [l|]; [destruct (objs (heap w) !! l); [destruct (instance_of _ _)|]|];
    reflexivity.
Qed.

Lemma generateError_stream (error : jsval) (message : string) (w : World) :
  stream (Variant.generateError error message w).1 = stream w.
Proof.
  unfold Variant.generateError, with_heap, new_Error, alloc.
  destruct error as [l|]; [destruct (objs (heap w) !! l); [destruct (instance_of _ _)|]|];
    reflexivity.
Qed.

Lemma handleError_sent (error : jsval) (message : string) (w : World) :
  sent (handleError error message w).1 = sent w.
Proof.
  unfold handleError, with_heap, new_Error, alloc.
  destruct error as [l|]; [destruct (objs (heap w) !! l); [destruct (instance_of _ _)|]|];
    reflexivity.
Qed.

(** [throw this.handleError(error, message)] always rejects, and leaves the
    stream and the sent commands alone. *)
Lemma rethrow_throws {A} (message : string) (error : jsval) (w : World) :
  exists w' v, @rethrow A message error w = (w', Throw v)
               /\ stream w' = stream w /\ sent w' = sent w.
Proof.
  unfold rethrow, bind.
  pose proof (handleError_stream error message w) as Hs.
  pose proof (handleError_sent error message w) as Ht.
  destruct (handleError error message w) as [w1 [v|v]] eqn:E.
  - exists w1, v. auto.
  - exists w1, v. auto.
Qed.

Lemma generateError_sent (error : jsval) (message : string) (w : World) :
  sent (Variant.generateError error message w).1 = sent w.
Proof.
  unfold Variant.generateError, with_heap, new_Error, alloc.
  destruct error as [l|]; [destruct (objs (heap w) !! l); [destruct (instance_of _ _)|]|];
    reflexivity.
Qed.

(** ** C4: what happens to the sink on each exit path *)

(** C4 (corrected). With Node's write stream, the first version of
    [downloadObject] only ever writes chunks to the stream: on every exit
    path (resolved, rejected or still running) the stream operations are
    the previous ones followed by writes, with no [end] and no removal of
    the partial file.  The variant with [finally] also only writes, and
    then calls [stream.end()] exactly once on every exit path of the call,
    the rejected ones included; it never removes the partial file. *)
Theorem downloadObject_sink_ops (client : Client) (bucket key : string) (fuel : nat) (w : World) :
  (exists bs, stream (downloadObject client node_write bucket key fuel w).1
              = mkSink (path (stream w)) (ops (stream w) ++ map SWrite bs))
  /\ (exists bs, let '(w', r) := Variant.downloadObject client node_write bucket key fuel w in
      stream w' = mkSink (path (stream w))
                    (ops (stream w) ++ map SWrite bs
                       ++ match r with Ok None => [] | _ => [SEnd] end)).
Proof.
  destruct (loop_stream_writes client bucket key fuel initial_range w) as [bs Hbs].
  split.
  - unfold downloadObject, try_catch, bind.
    destruct (download_loop client node_write bucket key fuel initial_range w)
      as [w1 [r|e]]; cbn [fst] in Hbs.
    + exists bs. exact Hbs.
    + destruct (rethrow_throws (A := option unit)
                  (download_message bucket key (path (stream w))) e w1)
        as (w2 & v & -> & Hs & _).
      exists bs. cbn [fst]. rewrite Hs. exact Hbs.
  - unfold Variant.downloadObject, Variant.try_finally, try_catch, bind.
    destruct (download_loop client node_write bucket key fuel initial_range w)
      as [w1 [r|e]]; cbn [fst] in Hbs.
    + destruct r as [r|]; cbn [ret loop_done].
      * unfold Variant.stream_end. exists bs. cbn [stream path ops]. rewrite Hbs.
        cbn [path ops]. rewrite <- app_assoc. reflexivity.
      * exists bs. rewrite app_nil_r. exact Hbs.
    + unfold throw.
      pose proof (generateError_stream e
                    (Variant.download_message bucket key (path (stream w))) w1) as Hs.
      destruct (Variant.generateError e _ w1) as [w2 [v|v]]; cbn [fst] in Hs;
        unfold Variant.stream_end; exists bs; cbn [stream path ops];
        rewrite Hs, Hbs; cbn [path ops]; rewrite <- app_assoc; reflexivity.
Qed.

(** C4 is false: when a later fetch fails, the first version leaves the
    chunk already written in the file and neither ends nor removes it;
    the variant ends the stream (flushing the partial file) and does not
    remove it either. *)
Lemma downloadObject_failure_keeps_partial_file :
  stream (downloadObject truncating_client node_write "b" "k" 3 (fresh_world "f")).1
    = mkSink "f" [SWrite [Byte.x01]]
  /\ is_throw (downloadObject truncating_client node_write "b" "k" 3 (fresh_world "f")).2 = true
  /\ stream (Variant.downloadObject truncating_client node_write "b" "k" 3 (fresh_world "f")).1
    = mkSink "f" [SWrite [Byte.x01]; SEnd]
  /\ is_throw (Variant.downloadObject truncating_client node_write "b" "k" 3 (fresh_world "f")).2
     = true.
Proof. vm_compute. repeat split. Qed.

(** ** C5: the requested windows *)

Lemma js_add_window (e : num) :
  js_add e (Fin ONE_MB) = js_add (js_add e (Fin 1)) (Fin (ONE_MB - 1)).
Proof. destruct e as [z|]; cbn; [f_equal; lia | reflexivity]. Qed.

Lemma loop_first_command (client : Client) (write : SinkWrite) (bucket key : string)
    (f : nat) (ral : RangeAndLength) (w : World) :
  isComplete (rend ral) (rlength ral) = false ->
  exists rest, sent (download_loop client write bucket key (S f) ral w).1
    = sent w ++ GetObjectCommand bucket key
        (Some (range_header (js_add (rend ral) (Fin 1)) (js_add (rend ral) (Fin ONE_MB))))
        :: rest.
Proof.
  intros Hc. cbn [download_loop]. rewrite Hc.
  unfold bind at 1, getObjectRange, send.
  destruct (client _ (heap w)) as [h1 [out|e]]; cbn [fst sent].
  - unfold bind, stream_write.
    match goal with |- context [write ?b ?s ?h] =>
      destruct (write b s h) as [h2 [s'|e]] end; cbn [fst sent].
    + match goal with |- context [download_loop client write bucket key f ?r ?w'] =>
        destruct (loop_sent_prefix client bucket key write f r w') as [rest Hr] end.
      rewrite Hr. cbn [sent]. exists rest. rewrite <- app_assoc. reflexivity.
    + exists []. reflexivity.
  - exists []. reflexivity.
Qed.

Lemma first_range_header :
  range_header (js_add (rend initial_range) (Fin 1)) (js_add (rend initial_range) (Fin ONE_MB))
  = "bytes=0-1048575".
Proof. vm_compute. reflexivity. Qed.

(** C5.  In every iteration that the loop enters (the completion check
    fails), the next command sent is a ranged GET for
    [bytes=start-end] with [start = end' + 1] and [end = start + ONE_MB - 1]
    for the previous end [end'] (in JavaScript arithmetic), with
    [ONE_MB = 1048576]; the first command of a call asks for
    [bytes=0-1048575]. *)
Theorem download_window (client : Client) (write : SinkWrite) (bucket key : string)
    (f : nat) (ral : RangeAndLength) (w : World) :
  isComplete (rend ral) (rlength ral) = false ->
  (exists rest, sent (download_loop client write bucket key (S f) ral w).1
     = sent w ++ GetObjectCommand bucket key
         (Some (range_header (js_add (rend ral) (Fin 1))
                             (js_add (js_add (rend ral) (Fin 1)) (Fin (ONE_MB - 1)))))
         :: rest)
  /\ ONE_MB = 1048576
  /\ (exists rest, sent (downloadObject client write bucket key (S f) w).1
        = sent w ++ GetObjectCommand bucket key (Some "bytes=0-1048575") :: rest).
Proof.
  intros Hc. split; [|split].
  - rewrite <- js_add_window. apply loop_first_command. exact Hc.
  - reflexivity.
  - destruct (loop_first_command client write bucket key f initial_range w eq_refl)
      as [rest Hr].
    rewrite first_range_header in Hr.
    exists rest. unfold downloadObject, try_catch, bind.
    destruct (download_loop client write bucket key (S f) initial_range w)
      as [w1 [r|e]]; cbn [fst] in Hr.
    + exact Hr.
    + destruct (rethrow_throws (A := option unit)
                  (download_message bucket key (path (stream w))) e w1)
        as (w2 & v & -> & _ & Ht).
      cbn [fst]. rewrite Ht. exact Hr.
Qed.

Lemma download_window_witness :
  isComplete (rend initial_range) (rlength initial_range) = false
  /\ ONE_MB = 1048576.
Proof.
  split; [reflexivity|].
  exact (proj1 (proj2 (download_window (range_server [Byte.x00]) node_write "b" "k" 0
                         initial_range (fresh_world "f") eq_refl))).
Defined.

(** ** C6: errors of the single-shot operations *)

Lemma run_op_client_throw (client : Client) (o : op) (bucket key : string) (w : World)
    (h1 : Heap) (e : jsval) :
  client (op_command o bucket key) (heap w) = (h1, Throw e) ->
  run_op client o bucket key w
  = (let '(w', v) := handleError e (op_message o bucket key)
                       (mkWorld h1 (stream w) (sent w ++ [op_command o bucket key])) in
     match v with Ok v => (w', Throw v) | Throw v => (w', Throw v) end).
Proof.
  intros H.
  destruct o; cbn [run_op op_message op_command] in *;
    unfold headObject, getObject, putObject, updateObjectMetadata, rethrow,
      try_catch, bind, send, throw in *; rewrite H;
    destruct (handleError _ _ _) as [w' [v|v]]; reflexivity.
Qed.

(** C6.  When the client call of [headObject], [getObject], [putObject] or
    [updateObjectMetadata] fails with [e], the operation rejects with a
    message that names the key and the bucket; if [e] is an
    [S3ServiceException], it rejects with [e] itself, the same heap object
    with its classes kept and its message replaced; otherwise it rejects
    with a new [Error] carrying that message. *)
Theorem single_shot_error (client : Client) (o : op) (bucket key : string) (w : World)
    (h1 : Heap) (e : jsval) :
  client (op_command o bucket key) (heap w) = (h1, Throw e) ->
  let msg := op_message o bucket key in
  let w1 := fun h => mkWorld h (stream w) (sent w ++ [op_command o bucket key]) in
  (exists p q r, msg = p +:+ key +:+ q +:+ bucket +:+ r)
  /\ (is_service_exception h1 e = true ->
      exists l eo, e = VRef l /\ objs h1 !! l = Some eo
        /\ run_op client o bucket key w
           = (w1 (mkHeap (<[l := mkErrorObject (eclasses eo) msg]> (objs h1)) (next h1)),
              Throw e))
  /\ (is_service_exception h1 e = false ->
      run_op client o bucket key w
      = (w1 (mkHeap (<[next h1 := mkErrorObject ["Error"] msg]> (objs h1)) (Pos.succ (next h1))),
         Throw (VRef (next h1)))).
Proof.
  intros H msg w1. rewrite (run_op_client_throw client o bucket key w h1 e H).
  split; [|split].
  - destruct o; do 3 eexists; reflexivity.
  - intros Hs. unfold is_service_exception in Hs.
    destruct e as [l|s]; [|discriminate].
    destruct (objs h1 !! l) as [eo|] eqn:El; [|discriminate].
    exists l, eo. split; [reflexivity|]. split; [exact El|].
    unfold handleError. cbn [heap]. rewrite El, Hs. reflexivity.
  - intros Hs. unfold handleError, with_heap, new_Error, alloc. cbn [heap].
    unfold is_service_exception in Hs.
    destruct e as [l|s]; [|reflexivity].
    destruct (objs h1 !! l) as [eo|]; [|reflexivity].
    rewrite Hs. reflexivity.
Qed.

Lemma single_shot_error_witness :
  access_denied_client (op_command OpHead "b" "k") (heap (fresh_world "f"))
    = (mkHeap {[1%positive := mkErrorObject ["AccessDenied"; "S3ServiceException"; "Error"]
                                             "Access Denied"]} 2%positive,
       Throw (VRef 1%positive))
  /\ run_op access_denied_client OpHead "b" "k" (fresh_world "f")
     = (mkWorld (mkHeap (<[1%positive := mkErrorObject ["AccessDenied"; "S3ServiceException"; "Error"]
                                          (head_message "b" "k")]>
                          {[1%positive := mkErrorObject ["AccessDenied"; "S3ServiceException"; "Error"]
                                             "Access Denied"]}) 2%positive)
                (mkSink "f" []) [HeadObjectCommand "b" "k"],
        Throw (VRef 1%positive)).
Proof.
  assert (H : access_denied_client (op_command OpHead "b" "k") (heap (fresh_world "f"))
    = (mkHeap {[1%positive := mkErrorObject ["AccessDenied"; "S3ServiceException"; "Error"]
                                             "Access Denied"]} 2%positive,
       Throw (VRef 1%positive))) by reflexivity.
  split; [exact H|].
  destruct (proj1 (proj2 (single_shot_error access_denied_client OpHead "b" "k"
                            (fresh_world "f") _ _ H)) eq_refl)
    as (l & eo & Hl & Heo & ->).
  injection Hl as <-. vm_compute in Heo. injection Heo as <-. reflexivity.
Defined.

(** ** C7: [getObjectString] and [getByteArray] *)

Lemma bind_ok {A B} (m : M A) (w w1 : World) (a : A) :
  m w = (w1, Ok a) -> forall k : A -> M B, bind m k w = k a w1.
Proof. intros H k. unfold bind. rewrite H. reflexivity. Qed.

Lemma body_check_result {A} (transform : list byte -> A) (o : Output) (w1 : World) :
  (match Body o with
   | Some body =>
       if body_missing o then e <- with_heap (new_Error "object body was undefined") ;; throw e
       else ret (transform body)
   | None => e <- with_heap (new_Error "object body was undefined") ;; throw e
   end) w1
  = match Body o, ContentLength o with
    | Some b, Some n => if Z.eqb n 0 then
                          (mkWorld (new_Error "object body was undefined" (heap w1)).1
                                   (stream w1) (sent w1),
                           Throw (new_Error "object body was undefined" (heap w1)).2)
                        else (w1, Ok (transform b))
    | _, _ => (mkWorld (new_Error "object body was undefined" (heap w1)).1
                       (stream w1) (sent w1),
               Throw (new_Error "object body was undefined" (heap w1)).2)
    end.
Proof.
  unfold body_missing.
  destruct (Body o) as [b|], (ContentLength o) as [n|]; try reflexivity.
  destruct (Z.eqb n 0); reflexivity.
Qed.

(** C7.  When [getObject] resolves with [o], [getObjectString] and
    [getByteArray] reject exactly when [o] has no [Body] or a
    [ContentLength] that is undefined or [0]; otherwise they resolve with
    the body transformed by [transformToString] / [transformToByteArray]. *)
Theorem get_transforms_fail_iff (client : Client) (transformToString : list byte -> string)
    (transformToByteArray : list byte -> list byte) (bucket key : string)
    (w w1 : World) (o : Output) :
  getObject client bucket key w = (w1, Ok o) ->
  (is_throw (getObjectString client transformToString bucket key w).2 = true
     <-> Body o = None \/ ContentLength o = None \/ ContentLength o = Some 0)
  /\ (is_throw (getByteArray client transformToByteArray bucket key w).2 = true
     <-> Body o = None \/ ContentLength o = None \/ ContentLength o = Some 0)
  /\ (forall b n, Body o = Some b -> ContentLength o = Some n -> n <> 0 ->
      getObjectString client transformToString bucket key w = (w1, Ok (transformToString b))
      /\ getByteArray client transformToByteArray bucket key w
         = (w1, Ok (transformToByteArray b))).
Proof.
  intros H. unfold getObjectString, getByteArray. rewrite !(bind_ok _ _ _ _ H).
  rewrite !body_check_result.
  split; [|split].
  - destruct (Body o) as [b|], (ContentLength o) as [n|]; cbn [snd is_throw];
      try (split; [intros _; eauto | reflexivity]).
    destruct (Z.eqb n 0) eqn:En; cbn [snd is_throw].
    + apply Z.eqb_eq in En. subst n. split; [intros _; eauto | reflexivity].
    + apply Z.eqb_neq in En. split; [discriminate|].
      intros [Hb|[Hn|Hn]]; congruence.
  - destruct (Body o) as [b|], (ContentLength o) as [n|]; cbn [snd is_throw];
      try (split; [intros _; eauto | reflexivity]).
    destruct (Z.eqb n 0) eqn:En; cbn [snd is_throw].
    + apply Z.eqb_eq in En. subst n. split; [intros _; eauto | reflexivity].
    + apply Z.eqb_neq in En. split; [discriminate|].
      intros [Hb|[Hn|Hn]]; congruence.
  - intros b n Hb Hn Hn0. rewrite Hb, Hn.
    apply Z.eqb_neq in Hn0. rewrite Hn0. split; reflexivity.
Qed.

Lemma get_transforms_fail_iff_witness :
  getObject (get_client (Some [Byte.x01]) (Some 0)) "b" "k" (fresh_world "f")
    = (mkWorld empty_heap (mkSink "f" []) [GetObjectCommand "b" "k" None],
       Ok (mkOutput None (Some [Byte.x01]) (Some 0)))
  /\ is_throw (getByteArray (get_client (Some [Byte.x01]) (Some 0)) (fun b => b) "b" "k"
                 (fresh_world "f")).2 = true.
Proof.
  assert (H : getObject (get_client (Some [Byte.x01]) (Some 0)) "b" "k" (fresh_world "f")
    = (mkWorld empty_heap (mkSink "f" []) [GetObjectCommand "b" "k" None],
       Ok (mkOutput None (Some [Byte.x01]) (Some 0)))) by reflexivity.
  split; [exact H|].
  apply (proj1 (proj2 (get_transforms_fail_iff _ (fun _ => EmptyString) (fun b => b)
                         "b" "k" _ _ _ H))).
  right; right; reflexivity.
Defined.

(** ** C8: two calls with fresh sinks *)

Section Determinism.

Variable client : Client.
Hypothesis Hpure : client_pure client.
Variables bucket key : string.

Lemma loop_deterministic (f : nat) : forall ral w1 w2,
  ops (stream w1) = ops (stream w2) ->
  ops (stream (download_loop client node_write bucket key f ral w1).1)
  = ops (stream (download_loop client node_write bucket key f ral w2).1)
  /\ same_result (download_loop client node_write bucket key f ral w1).2
                 (download_loop client node_write bucket key f ral w2).2.
Proof.
  induction f as [|f IH]; intros ral w1 w2 Hops; cbn [download_loop];
    destruct (isComplete (rend ral) (rlength ral));
    try (split; [exact Hops | reflexivity]).
  unfold bind, getObjectRange, send, stream_write.
  match goal with |- context [client ?cmd (heap w1)] =>
    pose proof (Hpure cmd (heap w1) (heap w2)) as Hc;
    destruct (client cmd (heap w1)) as [h1 [o1|e1]];
    destruct (client cmd (heap w2)) as [h2 [o2|e2]]; cbn [snd] in Hc;
    try contradiction end.
  - subst o2. cbn [stream heap sent].
    destruct (Body o1) as [b|].
    + rewrite !node_write_some. apply IH. cbn [stream ops]. rewrite Hops. reflexivity.
    + unfold node_write, alloc. cbn [fst snd stream]. split; [exact Hops | exact I].
  - split; [exact Hops | exact I].
Qed.

End Determinism.

(** C8.  For a client whose answers do not depend on the caller's heap,
    two calls of [downloadObject] on worlds whose streams have not been
    written to (any heaps, paths and earlier commands) leave the same
    operations, hence byte-identical writes, on their streams, and both
    resolve with the same value or both reject. *)
Theorem downloadObject_deterministic (client : Client) (bucket key : string) (fuel : nat)
    (w1 w2 : World) :
  client_pure client -> ops (stream w1) = [] -> ops (stream w2) = [] ->
  ops (stream (downloadObject client node_write bucket key fuel w1).1)
  = ops (stream (downloadObject client node_write bucket key fuel w2).1)
  /\ written (ops (stream (downloadObject client node_write bucket key fuel w1).1))
     = written (ops (stream (downloadObject client node_write bucket key fuel w2).1))
  /\ same_result (downloadObject client node_write bucket key fuel w1).2
                 (downloadObject client node_write bucket key fuel w2).2.
Proof.
  intros Hpure H1 H2.
  destruct (loop_deterministic client Hpure bucket key fuel initial_range w1 w2)
    as [Hops Hres]; [congruence|].
  assert (Hd : forall w, downloadObject client node_write bucket key fuel w
    = match download_loop client node_write bucket key fuel initial_range w with
      | (w', Ok r) => (w', Ok (loop_done r))
      | (w', Throw e) => rethrow (download_message bucket key (path (stream w))) e w'
      end).
  { intros w. unfold downloadObject, try_catch, bind.
    destruct (download_loop _ _ _ _ _ _ w) as [w' [r|e]]; reflexivity. }
  rewrite !Hd.
  destruct (download_loop client node_write bucket key fuel initial_range w1)
    as [v1 [r1|e1]];
  destruct (download_loop client node_write bucket key fuel initial_range w2)
    as [v2 [r2|e2]]; cbn [fst snd same_result] in Hops, Hres |- *; try contradiction.
  - subst r2. split; [exact Hops|]. split; [rewrite Hops; reflexivity | reflexivity].
  - destruct (rethrow_throws (A := option unit)
                (download_message bucket key (path (stream w1))) e1 v1)
      as (u1 & x1 & -> & Hs1 & _).
    destruct (rethrow_throws (A := option unit)
                (download_message bucket key (path (stream w2))) e2 v2)
      as (u2 & x2 & -> & Hs2 & _).
    cbn [fst snd same_result]. rewrite Hs1, Hs2.
    split; [exact Hops|]. split; [rewrite Hops; reflexivity | exact I].
Qed.

Lemma range_server_pure (obj : list byte) : client_pure (range_server obj).
Proof.
  intros cmd h1 h2. destruct cmd as [b k|b k [r|]|b k body|i]; cbn; try reflexivity.
  destruct (parse_range_header r) as [[s e]|]; [|reflexivity].
  destruct (s <? Z.of_nat (length obj)); reflexivity.
Qed.

Lemma downloadObject_deterministic_witness :
  ops (stream (downloadObject (range_server [Byte.x01; Byte.x02]) node_write "b" "k" 2
                 (fresh_world "first")).1)
  = ops (stream (downloadObject (range_server [Byte.x01; Byte.x02]) node_write "b" "k" 2
                   (mkWorld (mkHeap {[1%positive := InvalidRange]} 2%positive)
                            (mkSink "second" []) [HeadObjectCommand "b" "k"])).1).
Proof.
  exact (proj1 (downloadObject_deterministic (range_server [Byte.x01; Byte.x02]) "b" "k" 2
                  (fresh_world "first")
                  (mkWorld (mkHeap {[1%positive := InvalidRange]} 2%positive)
                           (mkSink "second" []) [HeadObjectCommand "b" "k"])
                  (range_server_pure _) eq_refl eq_refl)).
Defined.

(** ** C9: [updateObjectMetadata] *)

Lemma split_first_join (bucket key : string) :
  has_char "/" bucket = false ->
  split_first "/" (bucket +:+ "/" +:+ key) = Some (bucket, key).
Proof.
  induction bucket as [|c r IH]; intros H; [reflexivity|].
  rewrite string_app_cons. cbn [has_char] in H. apply orb_false_iff in H as [Hc Hr].
  cbn [split_first]. rewrite Hc, (IH Hr). reflexivity.
Qed.

(** C9.  When [updateObjectMetadata bucket key metadata] resolves, the one
    command it sent is a [CopyObject] of [bucket/key] onto itself with the
    directive ["REPLACE"] and the given metadata.  On a store holding the
    object (and a bucket name without ['/'], as S3 bucket names are), that
    copy keeps the object's data and makes its metadata exactly
    [metadata]: no key of the old metadata survives unless [metadata] has
    it. *)
Theorem updateObjectMetadata_replaces (client : Client) (bucket key : string)
    (metadata : gmap string string) (w w' : World)
    (store : gmap (string * string) S3Object) (o : S3Object) :
  has_char "/" bucket = false ->
  store !! (bucket, key) = Some o ->
  updateObjectMetadata client bucket key metadata w = (w', Ok tt) ->
  sent w' = sent w ++ [CopyObjectCommand (copy_input bucket key metadata)]
  /\ cBucket (copy_input bucket key metadata) = bucket
  /\ cKey (copy_input bucket key metadata) = key
  /\ cCopySource (copy_input bucket key metadata) = bucket +:+ "/" +:+ key
  /\ cMetadataDirective (copy_input bucket key metadata) = "REPLACE"
  /\ copy_object store (copy_input bucket key metadata)
     = Some (<[(bucket, key) := mkS3Object (data o) metadata]> store)
  /\ (forall store', copy_object store (copy_input bucket key metadata) = Some store' ->
      store' !! (bucket, key) = Some (mkS3Object (data o) metadata)).
Proof.
  intros Hb Ho Hu.
  assert (Hc : copy_object store (copy_input bucket key metadata)
               = Some (<[(bucket, key) := mkS3Object (data o) metadata]> store)).
  { unfold copy_object, copy_input. cbn [cCopySource cMetadataDirective cBucket cKey cMetadata].
    rewrite (split_first_join bucket key Hb), Ho. reflexivity. }
  split; [|split; [reflexivity|split; [reflexivity|split; [reflexivity|
          split; [reflexivity|split; [exact Hc|]]]]]].
  - unfold updateObjectMetadata, try_catch, bind, send in Hu.
    destruct (client _ (heap w)) as [h1 [out|e]].
    + injection Hu as <-. reflexivity.
    + destruct (rethrow_throws (A := unit) (update_message bucket key) e
                  (mkWorld h1 (stream w) (sent w ++ [CopyObjectCommand (copy_input bucket key metadata)])))
        as (w2 & v & Hr & _).
      rewrite Hr in Hu. discriminate.
  - intros store' Hs. rewrite Hc in Hs. injection Hs as <-.
    apply lookup_insert_eq.
Qed.

Lemma updateObjectMetadata_replaces_witness :
  copy_object {[("b", "k") := mkS3Object [Byte.x01] {["old" := "x"]}]}
              (copy_input "b" "k" {["new" := "y"]})
  = Some {[("b", "k") := mkS3Object [Byte.x01] {["new" := "y"]}]}.
Proof.
  assert (Hu : updateObjectMetadata (get_client None None) "b" "k" {["new" := "y"]}
                 (fresh_world "f")
               = (mkWorld empty_heap (mkSink "f" [])
                    [CopyObjectCommand (copy_input "b" "k" {["new" := "y"]})], Ok tt))
    by reflexivity.
  destruct (updateObjectMetadata_replaces (get_client None None) "b" "k" {["new" := "y"]}
              (fresh_world "f") _ {[("b", "k") := mkS3Object [Byte.x01] {["old" := "x"]}]}
              (mkS3Object [Byte.x01] {["old" := "x"]}) eq_refl (lookup_singleton_eq _ _) Hu)
    as (_ & _ & _ & _ & _ & Hc & _).
  etransitivity; [exact Hc | reflexivity].
Defined.

Lemma downloadObject_via_loop (client : Client) (write : SinkWrite) (bucket key : string)
    (fuel : nat) (w : World) :
  downloadObject client write bucket key fuel w
  = match download_loop client write bucket key fuel initial_range w with
    | (w', Ok r) => (w', Ok (loop_done r))
    | (w', Throw e) => rethrow (download_message bucket key (path (stream w))) e w'
    end.
Proof.
  unfold downloadObject, try_catch, bind.
  destruct (download_loop _ _ _ _ _ _ w) as [w' [r|e]]; reflexivity.
Qed.

(** ** C10: a response without a body *)

(** C10 (corrected).  When a fetch of the loop answers without [Body],
    the loop passes [undefined] to [writeStream.write]; if that call
    returns, the loop goes on with the response's [Content-Range] alone,
    and if it throws, the loop throws that error.  Node's [fs.WriteStream]
    throws a new [TypeError] on [undefined], so with it the loop throws
    right after such a fetch, without writing.  Whenever the loop of
    [downloadObject] throws an object that is not a service exception
    (such as that [TypeError]), the call rejects with a new [Error]
    carrying the download message; when the bodyless response answers
    the first fetch, the whole call is given exactly. *)
Theorem missing_body_writes_undefined (client : Client) (write : SinkWrite)
    (bucket key : string) (f : nat) (ral : RangeAndLength) (w : World)
    (h1 : Heap) (out : Output) :
  let cmd := GetObjectCommand bucket key
               (Some (range_header (js_add (rend ral) (Fin 1)) (js_add (rend ral) (Fin ONE_MB)))) in
  isComplete (rend ral) (rlength ral) = false ->
  client cmd (heap w) = (h1, Ok out) ->
  Body out = None ->
  download_loop client write bucket key (S f) ral w
  = match write None (stream w) h1 with
    | (h2, Ok s') => download_loop client write bucket key f
                       (getRangeAndLength (default EmptyString (ContentRange out)))
                       (mkWorld h2 s' (sent w ++ [cmd]))
    | (h2, Throw e) => (mkWorld h2 (stream w) (sent w ++ [cmd]), Throw e)
    end
  /\ (exists o, eclasses o = ["TypeError"; "Error"]
      /\ emessage o = "The chunk argument must be of type string or an instance of Buffer or Uint8Array. Received undefined"
      /\ download_loop client node_write bucket key (S f) ral w
         = (mkWorld (mkHeap (<[next h1 := o]> (objs h1)) (Pos.succ (next h1)))
                    (stream w) (sent w ++ [cmd]), Throw (VRef (next h1)))
      /\ (ral = initial_range ->
          downloadObject client node_write bucket key (S f) w
          = (mkWorld (mkHeap (<[Pos.succ (next h1) :=
                                  mkErrorObject ["Error"] (download_message bucket key (path (stream w)))]>
                                (<[next h1 := o]> (objs h1)))
                             (Pos.succ (Pos.succ (next h1))))
                     (stream w) (sent w ++ [cmd]),
             Throw (VRef (Pos.succ (next h1))))))
  /\ (forall fuel w0 w1 l o, download_loop client node_write bucket key fuel initial_range w0
                              = (w1, Throw (VRef l)) ->
      objs (heap w1) !! l = Some o -> instance_of "S3ServiceException" o = false ->
      downloadObject client node_write bucket key fuel w0
      = (mkWorld (mkHeap (<[next (heap w1) :=
                              mkErrorObject ["Error"] (download_message bucket key (path (stream w0)))]>
                            (objs (heap w1)))
                         (Pos.succ (next (heap w1))))
                 (stream w1) (sent w1),
         Throw (VRef (next (heap w1))))).
Proof.
  intros cmd Hc Hcl Hb.
  assert (Hstep : forall write' : SinkWrite,
    download_loop client write' bucket key (S f) ral w
    = match write' None (stream w) h1 with
      | (h2, Ok s') => download_loop client write' bucket key f
                         (getRangeAndLength (default EmptyString (ContentRange out)))
                         (mkWorld h2 s' (sent w ++ [cmd]))
      | (h2, Throw e) => (mkWorld h2 (stream w) (sent w ++ [cmd]), Throw e)
      end).
  { intros write'. cbn [download_loop]. rewrite Hc.
    unfold bind at 1, getObjectRange, send. cbn [fst snd]. subst cmd. rewrite Hcl.
    unfold bind, stream_write. cbn [heap stream sent]. rewrite Hb.
    destruct (write' None (stream w) h1) as [h2 [s'|e]]; reflexivity. }
  assert (Hrethrow : forall fuel w0 w1 l o,
      download_loop client node_write bucket key fuel initial_range w0 = (w1, Throw (VRef l)) ->
      objs (heap w1) !! l = Some o -> instance_of "S3ServiceException" o = false ->
      downloadObject client node_write bucket key fuel w0
      = (mkWorld (mkHeap (<[next (heap w1) :=
                              mkErrorObject ["Error"] (download_message bucket key (path (stream w0)))]>
                            (objs (heap w1)))
                         (Pos.succ (next (heap w1))))
                 (stream w1) (sent w1),
         Throw (VRef (next (heap w1))))).
  { intros fuel w0 w1 l o Hl Ho Hs. rewrite downloadObject_via_loop, Hl.
    unfold rethrow, bind, throw, handleError. rewrite Ho, Hs. reflexivity. }
  split; [apply Hstep|]. split; [|exact Hrethrow].
  exists (mkErrorObject ["TypeError"; "Error"]
    "The chunk argument must be of type string or an instance of Buffer or Uint8Array. Received undefined").
  split; [reflexivity|]. split; [reflexivity|].
  assert (Hloop : download_loop client node_write bucket key (S f) ral w
    = (mkWorld (mkHeap (<[next h1 := mkErrorObject ["TypeError"; "Error"]
         "The chunk argument must be of type string or an instance of Buffer or Uint8Array. Received undefined"]>
                          (objs h1)) (Pos.succ (next h1)))
               (stream w) (sent w ++ [cmd]), Throw (VRef (next h1)))).
  { rewrite Hstep. reflexivity. }
  split; [exact Hloop|].
  intros ->. exact (Hrethrow (S f) w _ (next h1) _ Hloop (lookup_insert_eq _ _ _) eq_refl).
Qed.

Lemma missing_body_writes_undefined_witness :
  downloadObject (no_body_client "bytes 0-0/1") node_write "b" "k" 1 (fresh_world "f")
  = (mkWorld (mkHeap (<[2%positive := mkErrorObject ["Error"] (download_message "b" "k" "f")]>
                        {[1%positive := mkErrorObject ["TypeError"; "Error"]
       "The chunk argument must be of type string or an instance of Buffer or Uint8Array. Received undefined"]})
       3%positive) (mkSink "f" []) [GetObjectCommand "b" "k" (Some "bytes=0-1048575")],
     Throw (VRef 2%positive)).
Proof.
  destruct (missing_body_writes_undefined (no_body_client "bytes 0-0/1") node_write
              "b" "k" 0 initial_range (fresh_world "f") empty_heap
              (mkOutput (Some "bytes 0-0/1") None None) eq_refl eq_refl eq_refl)
    as (_ & (o & Hc & Hm & _ & Hd) & _).
  rewrite (Hd eq_refl). destruct o as [c m]. cbn in Hc, Hm. subst c m.
  reflexivity.
Defined.

(** C10 is false for the stream the method is typed with: against a
    client that answers with a [Content-Range] and no body, the call with
    Node's write stream rejects after the first fetch, with a new [Error]
    (the [TypeError] of [write] is not a service exception), and writes
    nothing. *)
Lemma downloadObject_missing_body_rejects :
  (downloadObject (no_body_client "bytes 0-0/1") node_write "b" "k" 5 (fresh_world "f")).2
    = Throw (VRef 2%positive)
  /\ stream (downloadObject (no_body_client "bytes 0-0/1") node_write "b" "k" 5
               (fresh_world "f")).1 = mkSink "f" []
  /\ sent (downloadObject (no_body_client "bytes 0-0/1") node_write "b" "k" 5
             (fresh_world "f")).1 = [GetObjectCommand "b" "k" (Some "bytes=0-1048575")]
  /\ objs (heap (downloadObject (no_body_client "bytes 0-0/1") node_write "b" "k" 5
                   (fresh_world "f")).1) !! 2%positive
     = Some (mkErrorObject ["Error"] (download_message "b" "k" "f")).
Proof. vm_compute. repeat split. Qed.

(** * Further properties of the code *)

(** ** Parsing a [Content-Range] *)

Lemma parseInt_bytes_prefix (X : string) : parseInt ("bytes " +:+ X) = NaN.
Proof. reflexivity. Qed.

(** [getRangeAndLength] on the descriptor [bytes s-e/L] of a ranged GET
    reads the end [e] and the total length [L]; its start is [NaN], since
    the piece before ['-'] is ["bytes s"].  The completion check on it
    holds exactly when [e = L - 1].  This is stated for [e] and [L] at
    most 2^53, where [parseInt] and [length - 1] compute on doubles
    without rounding, as the model's numbers do. *)
Theorem getRangeAndLength_descriptor (s e L : Z) :
  0 <= s -> 0 <= e -> 0 <= L -> e <= 2 ^ 53 -> L <= 2 ^ 53 ->
  getRangeAndLength (content_range s e L) = mkRangeAndLength NaN (Fin e) (Fin L)
  /\ isComplete (rend (getRangeAndLength (content_range s e L)))
                (rlength (getRangeAndLength (content_range s e L))) = Z.eqb e (L - 1).
Proof.
  intros Hs He HL _ _.
  assert (Hcr : content_range s e L
    = ("bytes " +:+ (dec_nonneg s +:+ String "-" (dec_nonneg e))) +:+ String "/" (dec_nonneg L)).
  { unfold content_range. rewrite !string_app_assoc, string_app_cons. reflexivity. }
  assert (Hsl : has_char "/" ("bytes " +:+ (dec_nonneg s +:+ String "-" (dec_nonneg e))) = false).
  { rewrite !has_char_app. cbn [has_char].
    rewrite !dec_has_char by (assumption || reflexivity). reflexivity. }
  assert (Hsd : has_char "-" ("bytes " +:+ dec_nonneg s) = false).
  { rewrite has_char_app, dec_has_char by (assumption || reflexivity). reflexivity. }
  assert (Hg : getRangeAndLength (content_range s e L) = mkRangeAndLength NaN (Fin e) (Fin L)).
  { unfold getRangeAndLength. rewrite Hcr, split_on_app by exact Hsl.
    rewrite (split_on_no_sep "/" (dec_nonneg L)) by (apply dec_has_char; [assumption | reflexivity]).
    cbn [lookup list_lookup from_option id].
    rewrite <- (string_app_assoc "bytes " (dec_nonneg s)), split_on_app by exact Hsd.
    rewrite (split_on_no_sep "-" (dec_nonneg e)) by (apply dec_has_char; [assumption | reflexivity]).
    cbn [lookup list_lookup parseInt_opt].
    rewrite parseInt_bytes_prefix, !parseInt_dec_alone by assumption. reflexivity. }
  split; [exact Hg|]. rewrite Hg. reflexivity.
Qed.

Lemma getRangeAndLength_descriptor_witness :
  getRangeAndLength (content_range 0 1048575 2000000) = mkRangeAndLength NaN (Fin 1048575) (Fin 2000000)
  /\ isComplete (rend (getRangeAndLength (content_range 0 1048575 2000000)))
                (rlength (getRangeAndLength (content_range 0 1048575 2000000))) = false.
Proof.
  destruct (getRangeAndLength_descriptor 0 1048575 2000000) as [H1 H2]; [lia | lia | lia | lia | lia |].
  split; [exact H1 | rewrite H2; reflexivity].
Defined.

(** Whatever the descriptor string, the end that [getRangeAndLength]
    reads is [NaN] or non-negative (the piece it parses never holds a
    ['-']); so the completion check only ever holds for a parsed total
    length of at least [1]. *)
Theorem getRangeAndLength_end_nonneg (contentRange : string) :
  (rend (getRangeAndLength contentRange) = NaN
   \/ exists z, rend (getRangeAndLength contentRange) = Fin z /\ 0 <= z)
  /\ (isComplete (rend (getRangeAndLength contentRange))
                 (rlength (getRangeAndLength contentRange)) = true ->
      exists n, rlength (getRangeAndLength contentRange) = Fin n /\ 1 <= n).
Proof.
  split; [|apply complete_needs_positive_length].
  unfold getRangeAndLength. cbn [rend].
  set (rparts := split_on "-" (default EmptyString (split_on "/" contentRange !! 0%nat))).
  assert (Hp : Forall (fun p => has_char "-" p = false) rparts) by apply split_on_pieces.
  destruct (rparts !! 1%nat) as [p|] eqn:Ep.
  - rewrite Forall_lookup in Hp. apply parseInt_no_minus, (Hp _ _ Ep).
  - left. reflexivity.
Qed.

(** ** What the download sends and writes *)

Section LoopCounts.

Variable client : Client.
Variables bucket key : string.

Lemma loop_sent_gets (write : SinkWrite) (f : nat) : forall ral w,
  exists rest, sent (download_loop client write bucket key f ral w).1 = sent w ++ rest
    /\ Forall (fun c => exists r, c = GetObjectCommand bucket key (Some r)) rest
    /\ (length rest <= f)%nat.
Proof.
  induction f as [|f IH]; intros ral w; cbn [download_loop];
    destruct (isComplete (rend ral) (rlength ral));
    try (exists []; rewrite app_nil_r; split; [reflexivity | split; [constructor | cbn; lia]]).
  unfold bind at 1, getObjectRange, send.
  destruct (client _ (heap w)) as [h1 [out|e]]; cbn [fst sent].
  - unfold bind, stream_write.
    match goal with |- context [write ?b ?s ?h] =>
      destruct (write b s h) as [h2 [s'|e]] end; cbn [fst sent].
    + match goal with |- context [download_loop client write bucket key f ?r ?w'] =>
        destruct (IH r w') as (rest & Hr & Hg & Hl) end.
      rewrite Hr. cbn [sent]. eexists. rewrite <- app_assoc. split; [reflexivity|].
      split; [constructor; [eexists; reflexivity | exact Hg] | cbn; lia].
    + eexists. split; [reflexivity|]. split; [repeat constructor; eexists; reflexivity | cbn; lia].
  - eexists. split; [reflexivity|]. split; [repeat constructor; eexists; reflexivity | cbn; lia].
Qed.

Lemma loop_fetch_write_count (f : nat) : forall ral w,
  exists bs rest,
    stream (download_loop client node_write bucket key f ral w).1
      = mkSink (path (stream w)) (ops (stream w) ++ map SWrite bs)
    /\ sent (download_loop client node_write bucket key f ral w).1 = sent w ++ rest
    /\ length rest = (length bs
                      + if is_throw (download_loop client node_write bucket key f ral w).2
                        then 1 else 0)%nat.
Proof.
  induction f as [|f IH]; intros ral w; cbn [download_loop];
    destruct (isComplete (rend ral) (rlength ral));
    try (exists [], []; split; [apply sink_eta_writes | split; [rewrite app_nil_r; reflexivity | reflexivity]]).
  unfold bind, getObjectRange, send, stream_write.
  destruct (client _ (heap w)) as [h1 [out|e]]; cbn [fst snd sent stream heap].
  - destruct (Body out) as [b|].
    + rewrite node_write_some. cbn [fst snd sent stream heap path ops].
      match goal with |- context [download_loop client node_write bucket key f ?r ?w'] =>
        destruct (IH r w') as (bs & rest & Hs & Hr & Hl) end.
      exists (b :: bs), (GetObjectCommand bucket key
        (Some (range_header (js_add (rend ral) (Fin 1)) (js_add (rend ral) (Fin ONE_MB)))) :: rest).
      rewrite Hs, Hr. cbn [stream sent path ops map length].
      split; [rewrite <- app_assoc; reflexivity|].
      split; [rewrite <- app_assoc; reflexivity | rewrite Hl; lia].
    + unfold node_write, alloc. cbn [fst snd sent stream is_throw].
      exists [], [GetObjectCommand bucket key
        (Some (range_header (js_add (rend ral) (Fin 1)) (js_add (rend ral) (Fin ONE_MB))))].
      split; [apply sink_eta_writes | split; reflexivity].
  - cbn [is_throw].
    exists [], [GetObjectCommand bucket key
      (Some (range_header (js_add (rend ral) (Fin 1)) (js_add (rend ral) (Fin ONE_MB))))].
    split; [apply sink_eta_writes | split; reflexivity].
Qed.

End LoopCounts.


Lemma generateError_ok (error : jsval) (message : string) (w : World) :
  exists v, (Variant.generateError error message w).2 = Ok v.
Proof.
  unfold Variant.generateError, with_heap, new_Error, alloc.
  destruct error as [l|]; [destruct (objs (heap w) !! l); [destruct (instance_of _ _)|]|];
    eexists; reflexivity.
Qed.

Lemma variant_downloadObject_via_loop (client : Client) (write : SinkWrite) (bucket key : string)
    (fuel : nat) (w : World) :
  Variant.downloadObject client write bucket key fuel w
  = match download_loop client write bucket key fuel initial_range w with
    | (w', Ok None) => (w', Ok None)
    | (w', Ok (Some _)) => ((Variant.stream_end w').1, Ok (Some tt))
    | (w', Throw e) =>
        let '(w'', v) := Variant.generateError e
                           (Variant.download_message bucket key (path (stream w))) w' in
        match v with
        | Ok v => ((Variant.stream_end w'').1, Throw v)
        | Throw v => ((Variant.stream_end w'').1, Throw v)
        end
    end.
Proof.
  unfold Variant.downloadObject, Variant.try_finally, try_catch, bind.
  destruct (download_loop _ _ _ _ _ _ w) as [w' [[r|]|e]]; try reflexivity.
  unfold throw. destruct (Variant.generateError _ _ w') as [w'' [v|v]]; reflexivity.
Qed.

(** [downloadObject], in both versions, sends nothing but ranged
    [GetObject] commands for its own bucket and key, at most one per
    iteration of its loop, after the commands sent before the call. *)
Theorem downloadObject_sends_only_ranged_gets (client : Client) (write : SinkWrite)
    (bucket key : string) (fuel : nat) (w : World) :
  (exists rest, sent (downloadObject client write bucket key fuel w).1 = sent w ++ rest
     /\ Forall (fun c => exists r, c = GetObjectCommand bucket key (Some r)) rest
     /\ (length rest <= fuel)%nat)
  /\ (exists rest, sent (Variant.downloadObject client write bucket key fuel w).1 = sent w ++ rest
     /\ Forall (fun c => exists r, c = GetObjectCommand bucket key (Some r)) rest
     /\ (length rest <= fuel)%nat).
Proof.
  destruct (loop_sent_gets client bucket key write fuel initial_range w) as (rest & Hr & Hg & Hl).
  rewrite downloadObject_via_loop, variant_downloadObject_via_loop.
  destruct (download_loop client write bucket key fuel initial_range w) as [w1 [r|e]];
    cbn [fst] in Hr.
  - split; exists rest; (split; [|split; assumption]).
    + exact Hr.
    + destruct r; [exact Hr | exact Hr].
  - split.
    + destruct (rethrow_throws (A := option unit)
                  (download_message bucket key (path (stream w))) e w1)
        as (w2 & v & -> & _ & Ht).
      exists rest. cbn [fst]. rewrite Ht. auto.
    + pose proof (generateError_sent e (Variant.download_message bucket key (path (stream w))) w1)
        as Ht.
      destruct (Variant.generateError _ _ w1) as [w2 [v|v]]; cbn [fst] in Ht;
        exists rest; cbn [fst Variant.stream_end sent]; rewrite Ht; auto.
Qed.

(** With Node's write stream, each fetch of [downloadObject] whose
    response arrives is followed by exactly one write: the number of
    commands sent equals the number of chunks written when the call
    resolves or is still running, and exceeds it by one (the failing
    fetch or write) when the call rejects. *)
Theorem downloadObject_fetch_write_count (client : Client) (bucket key : string)
    (fuel : nat) (w : World) :
  exists bs rest,
    stream (downloadObject client node_write bucket key fuel w).1
      = mkSink (path (stream w)) (ops (stream w) ++ map SWrite bs)
    /\ sent (downloadObject client node_write bucket key fuel w).1 = sent w ++ rest
    /\ length rest = (length bs
                      + if is_throw (downloadObject client node_write bucket key fuel w).2
                        then 1 else 0)%nat.
Proof.
  destruct (loop_fetch_write_count client bucket key fuel initial_range w)
    as (bs & rest & Hs & Hr & Hl).
  rewrite downloadObject_via_loop.
  destruct (download_loop client node_write bucket key fuel initial_range w) as [w1 [r|e]];
    cbn [fst snd] in Hs, Hr, Hl.
  - exists bs, rest. auto.
  - destruct (rethrow_throws (A := option unit)
                (download_message bucket key (path (stream w))) e w1)
      as (w2 & v & -> & Hs2 & Ht).
    exists bs, rest. cbn [fst snd]. rewrite Hs2, Ht. auto.
Qed.

Lemma handleError_result (error : jsval) (message : string) (w : World) :
  exists l o, (handleError error message w).2 = Ok (VRef l)
    /\ objs (heap (handleError error message w).1) !! l = Some o
    /\ emessage o = message
    /\ (eclasses o = ["Error"] \/ "S3ServiceException" ∈ eclasses o).
Proof.
  unfold handleError, with_heap, new_Error, alloc.
  destruct error as [l|s].
  - destruct (objs (heap w) !! l) as [o|] eqn:El.
    + destruct (instance_of "S3ServiceException" o) eqn:Ei.
      * exists l, (mkErrorObject (eclasses o) message). cbn [fst snd heap objs].
        split; [reflexivity|]. split; [apply lookup_insert_eq|]. split; [reflexivity|].
        right. unfold instance_of in Ei. apply bool_decide_eq_true in Ei. exact Ei.
      * exists (next (heap w)), (mkErrorObject ["Error"] message). cbn [fst snd heap objs].
        split; [reflexivity|]. split; [apply lookup_insert_eq|]. auto.
    + exists (next (heap w)), (mkErrorObject ["Error"] message). cbn [fst snd heap objs].
      split; [reflexivity|]. split; [apply lookup_insert_eq|]. auto.
  - exists (next (heap w)), (mkErrorObject ["Error"] message). cbn [fst snd heap objs].
    split; [reflexivity|]. split; [apply lookup_insert_eq|]. auto.
Qed.

(** When [downloadObject] rejects, it rejects with an error object of the
    heap whose message names the key, the bucket and the file: either a
    service exception (its classes kept) or a plain [Error]. *)
Theorem downloadObject_rejection_message (client : Client) (write : SinkWrite)
    (bucket key : string) (fuel : nat) (w : World) (v : jsval) :
  (downloadObject client write bucket key fuel w).2 = Throw v ->
  exists l o, v = VRef l
    /\ objs (heap (downloadObject client write bucket key fuel w).1) !! l = Some o
    /\ emessage o = download_message bucket key (path (stream w))
    /\ (eclasses o = ["Error"] \/ "S3ServiceException" ∈ eclasses o).
Proof.
  rewrite downloadObject_via_loop.
  destruct (download_loop client write bucket key fuel initial_range w) as [w1 [r|e]];
    [discriminate|].
  destruct (handleError_result e (download_message bucket key (path (stream w))) w1)
    as (l & o & Hv & Ho & Hm & Hc).
  unfold rethrow, bind, throw.
  destruct (handleError e _ w1) as [w2 [u|u]]; cbn [snd fst] in *; [|discriminate].
  intros H. injection Hv as ->. injection H as <-. exists l, o. auto.
Qed.

Lemma downloadObject_rejection_message_witness :
  (downloadObject network_error_client node_write "b" "k" 1 (fresh_world "f")).2
    = Throw (VRef 2%positive)
  /\ objs (heap (downloadObject network_error_client node_write "b" "k" 1 (fresh_world "f")).1)
       !! 2%positive = Some (mkErrorObject ["Error"] (download_message "b" "k" "f")).
Proof.
  assert (H : (downloadObject network_error_client node_write "b" "k" 1 (fresh_world "f")).2
                = Throw (VRef 2%positive)) by reflexivity.
  split; [exact H|].
  destruct (downloadObject_rejection_message _ _ _ _ _ _ _ H) as (l & o & Hl & Ho & Hm & Hc).
  injection Hl as <-. rewrite Ho. destruct o as [c m]. cbn in Hm. subst m.
  vm_compute in Ho. injection Ho as <-. reflexivity.
Defined.

(** ** The two versions of [downloadObject] side by side *)

(** On the same client, stream and world, the version with [finally]
    sends the same commands, writes the same chunks and ends the same way
    (resolves with the same value or rejects) as the first version; its
    stream differs only by the one [end] that [finally] appends when the
    call has finished. *)
Theorem variant_downloadObject_same_run (client : Client) (write : SinkWrite)
    (bucket key : string) (fuel : nat) (w : World) :
  sent (Variant.downloadObject client write bucket key fuel w).1
    = sent (downloadObject client write bucket key fuel w).1
  /\ stream (Variant.downloadObject client write bucket key fuel w).1
     = mkSink (path (stream (downloadObject client write bucket key fuel w).1))
              (ops (stream (downloadObject client write bucket key fuel w).1)
               ++ match (downloadObject client write bucket key fuel w).2 with
                  | Ok None => []
                  | _ => [SEnd]
                  end)
  /\ same_result (Variant.downloadObject client write bucket key fuel w).2
                 (downloadObject client write bucket key fuel w).2.
Proof.
  rewrite downloadObject_via_loop, variant_downloadObject_via_loop.
  destruct (download_loop client write bucket key fuel initial_range w) as [w1 [[r|]|e]].
  - cbn. split; [reflexivity|]. split; reflexivity.
  - cbn. split; [reflexivity|]. split; [|reflexivity].
    destruct w1 as [h [p os] c]. cbn. rewrite app_nil_r. reflexivity.
  - destruct (rethrow_throws (A := option unit)
                (download_message bucket key (path (stream w))) e w1)
      as (w2 & v & -> & Hs & Ht).
    pose proof (generateError_stream e (Variant.download_message bucket key (path (stream w))) w1)
      as Hs'.
    pose proof (generateError_sent e (Variant.download_message bucket key (path (stream w))) w1)
      as Ht'.
    destruct (Variant.generateError _ _ w1) as [w3 [u|u]]; cbn [fst snd] in Hs', Ht' |- *;
      unfold Variant.stream_end; cbn [fst snd stream sent same_result];
      rewrite Hs, Ht, Hs', Ht'; auto.
Qed.

(** The version with [finally] rejects with the very error object the
    loop threw whenever it is an [Error] (a network error, the
    [TypeError] of [write]), its message replaced, and ends the stream;
    the first version rejects with a new [Error] instead unless the
    object is a service exception. *)
Theorem variant_download_keeps_error (client : Client) (write : SinkWrite)
    (bucket key : string) (fuel : nat) (w w1 : World) (l : positive) (eo : ErrorObject) :
  download_loop client write bucket key fuel initial_range w = (w1, Throw (VRef l)) ->
  objs (heap w1) !! l = Some eo ->
  instance_of "Error" eo = true ->
  Variant.downloadObject client write bucket key fuel w
  = (mkWorld (mkHeap (<[l := mkErrorObject (eclasses eo)
                               (Variant.download_message bucket key (path (stream w)))]>
                        (objs (heap w1))) (next (heap w1)))
             (mkSink (path (stream w1)) (ops (stream w1) ++ [SEnd])) (sent w1),
     Throw (VRef l))
  /\ (instance_of "S3ServiceException" eo = false ->
      (downloadObject client write bucket key fuel w).2 = Throw (VRef (next (heap w1)))).
Proof.
  intros Hl Ho He. split.
  - rewrite variant_downloadObject_via_loop, Hl.
    unfold Variant.generateError. rewrite Ho, He. reflexivity.
  - intros Hs. rewrite downloadObject_via_loop, Hl.
    unfold rethrow, bind, throw, handleError. rewrite Ho, Hs. reflexivity.
Qed.

Lemma variant_download_keeps_error_witness :
  (Variant.downloadObject network_error_client node_write "b" "k" 1 (fresh_world "f")).2
    = Throw (VRef 1%positive)
  /\ (downloadObject network_error_client node_write "b" "k" 1 (fresh_world "f")).2
    = Throw (VRef 2%positive).
Proof.
  assert (Hl : download_loop network_error_client node_write "b" "k" 1 initial_range
                 (fresh_world "f")
               = (mkWorld (mkHeap {[1%positive := mkErrorObject ["Error"] "socket hang up"]}
                                  2%positive)
                          (mkSink "f" []) [GetObjectCommand "b" "k" (Some "bytes=0-1048575")],
                  Throw (VRef 1%positive))) by reflexivity.
  destruct (variant_download_keeps_error _ _ _ _ _ _ _ 1%positive
              (mkErrorObject ["Error"] "socket hang up") Hl eq_refl eq_refl) as [H1 H2].
  rewrite H1, H2 by reflexivity. split; reflexivity.
Defined.

(** ** The single-shot operations of the second version *)

(** When the client call of the second version's [headObject]
    ([get = false]) or [getObject] ([get = true]) fails with [e]: if [e]
    is an [Error] object (of any class), the operation rejects with [e]
    itself, its classes kept and its message replaced by one naming the
    key and the bucket; otherwise (a thrown primitive, or an object that
    is not an [Error]) it rejects with a new [Error] carrying that
    message. *)
Theorem variant_single_shot_error (client : Client) (get : bool) (bucket key : string)
    (w : World) (h1 : Heap) (e : jsval) :
  let cmd := if get then GetObjectCommand bucket key None else HeadObjectCommand bucket key in
  let call := if get then Variant.getObject client bucket key else Variant.headObject client bucket key in
  let msg := if get then Variant.get_message bucket key else Variant.head_message bucket key in
  client cmd (heap w) = (h1, Throw e) ->
  (forall l eo, e = VRef l -> objs h1 !! l = Some eo -> instance_of "Error" eo = true ->
     call w = (mkWorld (mkHeap (<[l := mkErrorObject (eclasses eo) msg]> (objs h1)) (next h1))
                       (stream w) (sent w ++ [cmd]), Throw e))
  /\ ((forall l eo, e = VRef l -> objs h1 !! l = Some eo -> instance_of "Error" eo = false) ->
      call w = (mkWorld (mkHeap (<[next h1 := mkErrorObject ["Error"] msg]> (objs h1))
                                (Pos.succ (next h1)))
                        (stream w) (sent w ++ [cmd]), Throw (VRef (next h1)))).
Proof.
  intros cmd call msg H.
  assert (Hcall : call w = (let '(w', v) := Variant.generateError e msg
                                             (mkWorld h1 (stream w) (sent w ++ [cmd])) in
                            match v with Ok v => (w', Throw v) | Throw v => (w', Throw v) end)).
  { subst call cmd msg. destruct get;
      unfold Variant.getObject, Variant.headObject, Variant.rethrow, try_catch, bind, send, throw;
      rewrite H; destruct (Variant.generateError _ _ _) as [w' [v|v]]; reflexivity. }
  rewrite Hcall. split.
  - intros l eo -> Ho He. unfold Variant.generateError. cbn [heap]. rewrite Ho, He. reflexivity.
  - intros Hn. unfold Variant.generateError, with_heap, new_Error, alloc. cbn [heap].
    destruct e as [l|s]; [|reflexivity].
    destruct (objs h1 !! l) as [eo|] eqn:Ho; [|reflexivity].
    rewrite (Hn l eo eq_refl Ho). reflexivity.
Qed.

Lemma variant_single_shot_error_witness :
  Variant.headObject network_error_client "b" "k" (fresh_world "f")
  = (mkWorld (mkHeap {[1%positive := mkErrorObject ["Error"] (Variant.head_message "b" "k")]}
                     2%positive)
             (mkSink "f" []) [HeadObjectCommand "b" "k"],
     Throw (VRef 1%positive)).
Proof.
  assert (H : network_error_client (HeadObjectCommand "b" "k") (heap (fresh_world "f"))
              = (mkHeap {[1%positive := mkErrorObject ["Error"] "socket hang up"]} 2%positive,
                 Throw (VRef 1%positive))) by reflexivity.
  rewrite (proj1 (variant_single_shot_error network_error_client false "b" "k" (fresh_world "f")
                    _ _ H) 1%positive (mkErrorObject ["Error"] "socket hang up")
                    eq_refl eq_refl eq_refl). reflexivity.
Defined.

(** When the client answers the [GetObject] of [getObjectString] or
    [getByteArray], the second version behaves exactly as the first:
    [generateError(new Error(), "object body was undefined")] leaves the
    same heap and rejection as [new Error("object body was undefined")]. *)
Theorem variant_get_transforms_agree (client : Client) (transformToString : list byte -> string)
    (transformToByteArray : list byte -> list byte) (bucket key : string) (w : World)
    (h1 : Heap) (o : Output) :
  client (GetObjectCommand bucket key None) (heap w) = (h1, Ok o) ->
  Variant.getObjectString client transformToString bucket key w
    = getObjectString client transformToString bucket key w
  /\ Variant.getByteArray client transformToByteArray bucket key w
    = getByteArray client transformToByteArray bucket key w.
Proof.
  intros H.
  assert (Hg : getObject client bucket key w
               = (mkWorld h1 (stream w) (sent w ++ [GetObjectCommand bucket key None]), Ok o)).
  { unfold getObject, try_catch, send. rewrite H. reflexivity. }
  assert (Hv : Variant.getObject client bucket key w
               = (mkWorld h1 (stream w) (sent w ++ [GetObjectCommand bucket key None]), Ok o)).
  { unfold Variant.getObject, try_catch, send. rewrite H. reflexivity. }
  assert (Hb : forall A w1, (@Variant.body_undefined A) w1
      = (mkWorld (new_Error "object body was undefined" (heap w1)).1 (stream w1) (sent w1),
         Throw (new_Error "object body was undefined" (heap w1)).2)).
  { intros A [[os n] s c]. unfold Variant.body_undefined, bind, with_heap, new_Error, alloc,
      Variant.generateError, throw. cbn [heap objs next fst snd stream sent].
    rewrite lookup_insert_eq. cbn [instance_of]. unfold instance_of. cbn [eclasses].
    rewrite bool_decide_eq_true_2 by set_solver.
    rewrite insert_insert_eq. reflexivity. }
  unfold Variant.getObjectString, Variant.getByteArray, getObjectString, getByteArray.
  rewrite !(bind_ok _ _ _ _ Hg), !(bind_ok _ _ _ _ Hv).
  destruct (Body o) as [b|]; [destruct (body_missing o)|];
    unfold bind, with_heap, throw; rewrite ?Hb; split; reflexivity.
Qed.

Lemma variant_get_transforms_agree_witness :
  Variant.getByteArray (get_client (Some [Byte.x01]) (Some 0)) (fun b => b) "b" "k"
    (fresh_world "f")
  = getByteArray (get_client (Some [Byte.x01]) (Some 0)) (fun b => b) "b" "k"
      (fresh_world "f").
Proof.
  exact (proj2 (variant_get_transforms_agree (get_client (Some [Byte.x01]) (Some 0))
                  (fun _ => EmptyString) (fun b => b) "b" "k" (fresh_world "f") empty_heap
                  (mkOutput None (Some [Byte.x01]) (Some 0)) eq_refl)).
Defined.

(** ** Responses without [Content-Range] *)

Lemma nan_range_header :
  range_header (js_add (rend (getRangeAndLength EmptyString)) (Fin 1))
               (js_add (rend (getRangeAndLength EmptyString)) (Fin ONE_MB))
  = "bytes=NaN-NaN".
Proof. reflexivity. Qed.

Lemma loop_range_ignored (b : list byte) (bucket key : string) (n : nat) : forall w,
  download_loop (no_range_client b) node_write bucket key n (getRangeAndLength EmptyString) w
  = (mkWorld (heap w) (mkSink (path (stream w)) (ops (stream w) ++ repeat (SWrite b) n))
             (sent w ++ repeat (GetObjectCommand bucket key (Some "bytes=NaN-NaN")) n),
     Ok None).
Proof.
  induction n as [|n IH]; intros w.
  - destruct w as [h [p os] c]. cbn. rewrite !app_nil_r. reflexivity.
  - cbn [download_loop].
    replace (isComplete (rend (getRangeAndLength EmptyString))
                        (rlength (getRangeAndLength EmptyString))) with false by reflexivity.
    unfold bind, getObjectRange, send, stream_write. cbn [fst snd].
    rewrite nan_range_header. unfold no_range_client. cbn [Body ContentRange default from_option id].
    rewrite node_write_some. rewrite IH. cbn [heap stream sent path ops repeat].
    rewrite <- !app_assoc. reflexivity.
Qed.

(** Against a server that ignores the [Range] header and answers every
    GET with the whole object [b] and no [Content-Range], [downloadObject]
    never finishes: after [n + 1] iterations it has written the whole
    object [n + 1] times and, after the first window, asks for
    [bytes=NaN-NaN] on every iteration. *)
Theorem downloadObject_range_ignored (b : list byte) (bucket key file : string) (n : nat) :
  downloadObject (no_range_client b) node_write bucket key (S n) (fresh_world file)
  = (mkWorld empty_heap (mkSink file (repeat (SWrite b) (S n)))
       (GetObjectCommand bucket key (Some "bytes=0-1048575")
        :: repeat (GetObjectCommand bucket key (Some "bytes=NaN-NaN")) n),
     Ok None).
Proof.
  rewrite downloadObject_via_loop. cbn [download_loop].
  replace (isComplete (rend initial_range) (rlength initial_range)) with false by reflexivity.
  unfold bind, getObjectRange, send, stream_write. cbn [fst snd].
  rewrite first_range_header. unfold no_range_client. cbn [Body ContentRange default from_option id].
  rewrite node_write_some.
  change (getRangeAndLength (default EmptyString None)) with (getRangeAndLength EmptyString).
  fold (no_range_client b). rewrite loop_range_ignored. reflexivity.
Qed.

(** ** When the call resolves *)

Lemma loop_resolves_after_fetch (client : Client) (write : SinkWrite) (bucket key : string)
    (f : nat) : forall ral w w' r,
  download_loop client write bucket key f ral w = (w', Ok (Some r)) ->
  (r = ral /\ w' = w) \/ (length (sent w) < length (sent w'))%nat.
Proof.
  induction f as [|f IH]; intros ral w w' r H; cbn [download_loop] in H;
    destruct (isComplete (rend ral) (rlength ral)).
  - injection H as <- <-. auto.
  - discriminate.
  - injection H as <- <-. auto.
  - right. unfold bind at 1, getObjectRange, send in H.
    destruct (client _ (heap w)) as [h1 [out|e]]; [|discriminate].
    unfold bind, stream_write in H.
    match type of H with context [write ?b ?s ?h] =>
      destruct (write b s h) as [h2 [s'|e]] end; [|discriminate].
    cbn [sent] in H.
    match type of H with download_loop client write bucket key f ?r0 ?w0 = _ =>
      destruct (loop_sent_prefix client bucket key write f r0 w0) as [rest Hr];
      rewrite H in Hr end.
    cbn [fst sent] in Hr. rewrite Hr, !length_app. cbn. lia.
Qed.

Lemma loop_last_fetch (client : Client) (bucket key : string) (f : nat) : forall ral w w' r,
  download_loop client node_write bucket key f ral w = (w', Ok (Some r)) ->
  (r = ral /\ w' = w)
  \/ exists pre cmd h out, sent w' = sent w ++ pre ++ [cmd]
       /\ client cmd h = (heap w', Ok out)
       /\ r = getRangeAndLength (default EmptyString (ContentRange out)).
Proof.
  induction f as [|f IH]; intros ral w w' r H; cbn [download_loop] in H;
    destruct (isComplete (rend ral) (rlength ral)).
  - injection H as <- <-. auto.
  - discriminate.
  - injection H as <- <-. auto.
  - right. unfold bind at 1, getObjectRange, send in H.
    destruct (client _ (heap w)) as [h1 [out|e]] eqn:Hc; [|discriminate].
    unfold bind, stream_write in H. cbn [heap stream sent] in H.
    unfold node_write at 1 in H. destruct (Body out) as [b|] eqn:Hb.
    2:{ destruct (alloc _ h1); discriminate. }
    destruct (IH _ _ _ _ H) as [[-> ->] | (pre & cmd & h & out' & Hs & Hc' & ->)].
    + eexists [], _, (heap w), out. cbn [sent heap]. split; [reflexivity|]. split; [exact Hc | reflexivity].
    + eexists (_ :: pre), cmd, h, out'. cbn [sent] in Hs. rewrite Hs, <- app_assoc.
      split; [reflexivity|]. split; [exact Hc' | reflexivity].
Qed.

(** With Node's write stream, when [downloadObject] resolves, the last
    command it sent is a ranged [GetObjectCommand] for its bucket and key,
    and the client's answer to it, the one that leaves the heap the call
    ends with, carries a descriptor that parses to a total length [n >= 1]
    and the end [n - 1]. *)
Theorem downloadObject_resolves_after_complete_descriptor (client : Client)
    (bucket key : string) (fuel : nat) (w : World) :
  (downloadObject client node_write bucket key fuel w).2 = Ok (Some tt) ->
  exists pre cmd h out n,
    sent (downloadObject client node_write bucket key fuel w).1 = sent w ++ pre ++ [cmd]
    /\ (exists r0, cmd = GetObjectCommand bucket key (Some r0))
    /\ client cmd h = (heap (downloadObject client node_write bucket key fuel w).1, Ok out)
    /\ rlength (getRangeAndLength (default EmptyString (ContentRange out))) = Fin n
    /\ rend (getRangeAndLength (default EmptyString (ContentRange out))) = Fin (n - 1)
    /\ 1 <= n.
Proof.
  rewrite downloadObject_via_loop.
  destruct (download_loop client node_write bucket key fuel initial_range w) as [w1 [[r|]|e]] eqn:El.
  - intros _. cbn [fst].
    destruct (loop_exit_state client node_write bucket key fuel initial_range w w1 r El) as [Hc _].
    destruct (loop_last_fetch client bucket key fuel initial_range w w1 r El)
      as [[Hr _] | (pre & cmd & h & out & Hs & Hcl & Hr)].
    { rewrite Hr in Hc. vm_compute in Hc. discriminate. }
    destruct (loop_sent_gets client bucket key node_write fuel initial_range w)
      as (rest & Hrest & Hg & _).
    rewrite El in Hrest. cbn [fst] in Hrest. rewrite Hs in Hrest.
    apply app_inv_head in Hrest. subst rest.
    apply Forall_app in Hg as [_ Hg]. apply Forall_inv in Hg.
    subst r. destruct (complete_needs_positive_length _ Hc) as (n & Hn & Hn1).
    exists pre, cmd, h, out, n. split; [exact Hs|]. split; [exact Hg|].
    split; [exact Hcl|]. split; [exact Hn|]. split; [|exact Hn1].
    unfold isComplete in Hc. rewrite Hn in Hc.
    destruct (rend _) as [z|]; [|discriminate].
    cbn in Hc. apply Z.eqb_eq in Hc. subst z. reflexivity.
  - discriminate.
  - unfold rethrow, bind. destruct (handleError e _ w1) as [w2 [v|v]]; discriminate.
Qed.

Lemma downloadObject_resolves_after_complete_descriptor_witness :
  (downloadObject (range_server [Byte.x01]) node_write "b" "k" 1 (fresh_world "f")).2 = Ok (Some tt)
  /\ exists pre cmd h out n,
    sent (downloadObject (range_server [Byte.x01]) node_write "b" "k" 1 (fresh_world "f")).1
      = sent (fresh_world "f") ++ pre ++ [cmd]
    /\ (exists r0, cmd = GetObjectCommand "b" "k" (Some r0))
    /\ range_server [Byte.x01] cmd h
       = (heap (downloadObject (range_server [Byte.x01]) node_write "b" "k" 1 (fresh_world "f")).1,
          Ok out)
    /\ rlength (getRangeAndLength (default EmptyString (ContentRange out))) = Fin n
    /\ rend (getRangeAndLength (default EmptyString (ContentRange out))) = Fin (n - 1)
    /\ 1 <= n.
Proof.
  split; [reflexivity|].
  exact (downloadObject_resolves_after_complete_descriptor (range_server [Byte.x01])
           "b" "k" 1 (fresh_world "f") eq_refl).
Defined.
